(** * CheckersGame: the rule engine of a console checkers program

    A shallow embedding of [CheckersGame.cpp]: the 8x8 board, the move
    generators, the move applicator, promotion and the turn loop of
    [main], followed by the properties of the rule engine.

    Conventions of the embedding.
    - C++ [int] coordinates are [Z]; every value that occurs is far from
      the limits of [int], so no wrap-around is involved.
    - The global [static int board[8][8]] is threaded explicitly as a
      value of type [Board]; a function that mutates the global returns
      the new board.
    - Indexing the C array outside [0..7] is undefined behaviour.  The
      source guards every computed index with [inBounds]; the remaining
      indices come from loops over [0..7] or from [parseSquare].  The
      accessors below are total ([cellAt] reads [EMPTY], [setCell] writes
      nothing outside the array); properties are stated for indices
      inside the array.
    - [clearScreen] and the prompts are left out, and the turn loop does
      not carry the text it prints; the messages that report a decision of
      the engine are kept as events of the turn loop. *)

From Stdlib Require Import ZArith List Bool Lia String Ascii DecimalString.
From stdpp Require Import base tactics option list.
Import ListNotations.

Local Open Scope Z_scope.

(** ** Data model *)

(** [enum Piece]: EMPTY = 0, W_MAN = 1, W_KING = 2, B_MAN = 3, B_KING = 4. *)
Inductive Piece : Set := EMPTY | W_MAN | W_KING | B_MAN | B_KING.

(** [enum Player]: WHITE = 1 (Player 1), BLACK = 2 (Player 2). *)
Inductive Player : Set := WHITE | BLACK.

Definition Piece_eqb (a b : Piece) : bool :=
  match a, b with
  | EMPTY, EMPTY | W_MAN, W_MAN | W_KING, W_KING
  | B_MAN, B_MAN | B_KING, B_KING => true
  | _, _ => false
  end.

Definition Player_eqb (a b : Player) : bool :=
  match a, b with
  | WHITE, WHITE | BLACK, BLACK => true
  | _, _ => false
  end.

#[global] Instance Piece_eq_dec : EqDecision Piece.
Proof. solve_decision. Defined.

#[global] Instance Player_eq_dec : EqDecision Player.
Proof. solve_decision. Defined.

(** [struct Move]. *)
Record Move : Set := mkMove {
  fr : Z; fc : Z;
  tr : Z; tc : Z;
  isCapture : bool;
  cr : Z; cc : Z
}.

(** [static int board[8][8]]: rows of cells.  Only enumerators of [Piece]
    are ever stored, so a cell is a [Piece]. *)
Abbreviation Board := (list (list Piece)).

(** The shape the C type guarantees. *)
Definition wfBoard (b : Board) : Prop :=
  length b = 8%nat /\ Forall (fun row => length row = 8%nat) b.

Definition wfBoardb (b : Board) : bool :=
  Nat.eqb (length b) 8 && forallb (fun row => Nat.eqb (length row) 8) b.

(** ** Utility helpers *)

Definition inBounds (r c : Z) : bool :=
  (0 <=? r) && (r <? 8) && (0 <=? c) && (c <? 8).

(** [(r + c) % 2 == 1]; C's [%] truncates, hence [Z.rem]. *)
Definition isDarkSquare (r c : Z) : bool := Z.rem (r + c) 2 =? 1.

(** [board[r][c]] as an rvalue. *)
Definition cellAt (b : Board) (r c : Z) : Piece :=
  if inBounds r c
  then default EMPTY (b !! Z.to_nat r ≫= fun row => row !! Z.to_nat c)
  else EMPTY.

(** [board[r][c] = v]. *)
Definition setCell (b : Board) (r c : Z) (v : Piece) : Board :=
  if inBounds r c
  then alter (fun row => <[Z.to_nat c := v]> row) (Z.to_nat r) b
  else b.

Definition isKing (p : Piece) : bool :=
  Piece_eqb p W_KING || Piece_eqb p B_KING.

Definition belongsTo (p : Piece) (pl : Player) : bool :=
  if Piece_eqb p EMPTY then false
  else if Player_eqb pl WHITE then Piece_eqb p W_MAN || Piece_eqb p W_KING
  else Piece_eqb p B_MAN || Piece_eqb p B_KING.

Definition isEnemy (a b : Piece) : bool :=
  if Piece_eqb a EMPTY || Piece_eqb b EMPTY then false
  else
    let aWhite := Piece_eqb a W_MAN || Piece_eqb a W_KING in
    let bWhite := Piece_eqb b W_MAN || Piece_eqb b W_KING in
    negb (Bool.eqb aWhite bWhite).

(** [for (int i = lo; i < lo + n; i++) body], over a state [S]. *)
Definition forZ {S : Type} (lo n : Z) (body : Z -> S -> S) (s : S) : S :=
  fold_left (fun acc i => body i acc) (seqZ lo n) s.

(** ** Board setup *)

(** The zero-initialised static array. *)
Definition zeroBoard : Board := replicate 8 (replicate 8 EMPTY).

Definition initBoard (b : Board) : Board :=
  (* 1) clear everything *)
  let b := forZ 0 8 (fun r b => forZ 0 8 (fun c b => setCell b r c EMPTY) b) b in
  (* 2) white men on rows 0..2 on dark squares *)
  let b := forZ 0 3 (fun r b =>
             forZ 0 8 (fun c b =>
               if isDarkSquare r c then setCell b r c W_MAN else b) b) b in
  (* 3) black men on rows 5..7 on dark squares *)
  let b := forZ 5 3 (fun r b =>
             forZ 0 8 (fun c b =>
               if isDarkSquare r c then setCell b r c B_MAN else b) b) b in
  b.

(** The board [main] starts from. *)
Definition startBoard : Board := initBoard zeroBoard.

(** ** Coordinate parsing *)

Definition charCode (ch : ascii) : Z := Z.of_N (N_of_ascii ch).

(** [isalpha], [isdigit] and [tolower] of the "C" locale (the program never
    calls [setlocale]). *)
Definition isalpha (ch : Z) : bool :=
  ((65 <=? ch) && (ch <=? 90)) || ((97 <=? ch) && (ch <=? 122)).

Definition isdigit (ch : Z) : bool := (48 <=? ch) && (ch <=? 57).

Definition tolower (ch : Z) : Z :=
  if (65 <=? ch) && (ch <=? 90) then ch + 32 else ch.

(** [for (char ch : token) if (isalpha(ch)) { file = tolower(ch); break; }]
    with [file] initialised to [init]. *)
Fixpoint firstAlpha (token : string) (init : Z) : Z :=
  match token with
  | EmptyString => init
  | String ch rest =>
      if isalpha (charCode ch) then tolower (charCode ch)
      else firstAlpha rest init
  end.

Fixpoint firstDigit (token : string) (init : Z) : Z :=
  match token with
  | EmptyString => init
  | String ch rest =>
      if isdigit (charCode ch) then charCode ch
      else firstDigit rest init
  end.

(** [parseSquare(token, r, c)]: [Some (r, c)] when the function returns
    true with the out-parameters set, [None] when it returns false. *)
Definition parseSquare (token : string) : option (Z * Z) :=
  if (String.length token <? 2)%nat then None
  else
    let file := firstAlpha token 0 in
    let rank := firstDigit token 0 in
    if (file <? 97) || (104 <? file) then None
    else if (rank <? 49) || (56 <? rank) then None
    else
      let c := file - 97 in
      let r := rank - 49 in
      if inBounds r c then Some (r, c) else None.

Definition forwardDir (pl : Player) : Z :=
  if Player_eqb pl WHITE then 1 else -1.

(** ** Move generation *)

(** The direction deltas of a piece [p] moved by [pl]. *)
Definition dirsOf (p : Piece) (pl : Player) : list (Z * Z) :=
  if isKing p then [(1, 1); (1, -1); (-1, 1); (-1, -1)]
  else let d := forwardDir pl in [(d, 1); (d, -1)].

Definition captureMovesFrom (b : Board) (r c : Z) (pl : Player) : list Move :=
  let moves : list Move := [] in
  let p := cellAt b r c in
  if negb (belongsTo p pl) then moves
  else
    let dirs := dirsOf p pl in
    fold_left (fun moves '(dr, dc) =>
      let r1 := r + dr in let c1 := c + dc in
      let r2 := r + 2 * dr in let c2 := c + 2 * dc in
      if negb (inBounds r1 c1) || negb (inBounds r2 c2) then moves
      else if negb (Piece_eqb (cellAt b r2 c2) EMPTY) then moves
      else if isEnemy p (cellAt b r1 c1)
           then moves ++ [mkMove r c r2 c2 true r1 c1]
           else moves) dirs moves.

Definition simpleMovesFrom (b : Board) (r c : Z) (pl : Player) : list Move :=
  let moves : list Move := [] in
  let p := cellAt b r c in
  if negb (belongsTo p pl) then moves
  else
    let dirs := dirsOf p pl in
    fold_left (fun moves '(dr, dc) =>
      let r2 := r + dr in let c2 := c + dc in
      if negb (inBounds r2 c2) then moves
      else if negb (Piece_eqb (cellAt b r2 c2) EMPTY) then moves
      else moves ++ [mkMove r c r2 c2 false (-1) (-1)]) dirs moves.

Definition allCaptures (b : Board) (pl : Player) : list Move :=
  forZ 0 8 (fun r res =>
    forZ 0 8 (fun c res => res ++ captureMovesFrom b r c pl) res) [].

Definition allLegalMoves (b : Board) (pl : Player) : list Move :=
  let caps := allCaptures b pl in
  match caps with
  | _ :: _ => caps
  | [] =>
      forZ 0 8 (fun r res =>
        forZ 0 8 (fun c res => res ++ simpleMovesFrom b r c pl) res) []
  end.

Definition countPieces (b : Board) (pl : Player) : Z :=
  forZ 0 8 (fun r cnt =>
    forZ 0 8 (fun c cnt =>
      if belongsTo (cellAt b r c) pl then cnt + 1 else cnt) cnt) 0.

Definition sameMove (a : Move) (fr' fc' tr' tc' : Z) : bool :=
  (fr a =? fr') && (fc a =? fc') && (tr a =? tr') && (tc a =? tc').

(** ** Move application and promotion *)

Definition applyMove (b : Board) (mv : Move) : Board :=
  let p := cellAt b (fr mv) (fc mv) in
  let b := setCell b (tr mv) (tc mv) p in
  let b := setCell b (fr mv) (fc mv) EMPTY in
  if isCapture mv then setCell b (cr mv) (cc mv) EMPTY else b.

Definition maybePromote (b : Board) (r c : Z) : Board :=
  let p := cellAt b r c in
  let b := if Piece_eqb p W_MAN && (r =? 7) then setCell b r c W_KING else b in
  let b := if Piece_eqb p B_MAN && (r =? 0) then setCell b r c B_KING else b in
  b.

(** ** The turn loop of [main] *)

(** [(turn == WHITE) ? BLACK : WHITE]. *)
Definition opponent (pl : Player) : Player :=
  if Player_eqb pl WHITE then BLACK else WHITE.

Inductive WinReason : Set := NoPieces | NoLegalMoves.

(** How the program left its loop. *)
Inductive Outcome : Set :=
| Win (winner : Player) (why : WinReason)
| EndOfInput.

(** The console messages that reject a submission. *)
Inductive Rejection : Set :=
| InvalidFormat        (* Invalid input format. Use like b6 a5 *)
| NotDarkSquare        (* You can only move to dark squares. *)
| NotOwnPiece          (* That piece is not yours. *)
| DestinationOccupied  (* Destination is not empty. *)
| IllegalMove          (* Illegal move. *)
| BadSquare            (* Bad square input. *)
| MustContinue.        (* You must continue capturing ... *)

(** What one pass through a loop body does, in program order. *)
Inductive Event : Set :=
| EvGameOver (winner : Player) (why : WinReason)
| EvEndOfInput
| EvReject (why : Rejection)
| EvApply (mv : Move)
| EvPromote (r c : Z)
| EvSwitch (next : Player).

(** The control point of [main]: the head of the outer [while], the head
    of the multi-capture [while] with its [curR], [curC], or past the
    loop. *)
Inductive Phase : Set :=
| TurnStart
| Chain (curR curC : Z)
| Finished (o : Outcome).

(** The program state: the global board, [turn], the control point and
    the whitespace-separated tokens still to be read from [cin]. *)
Record State : Type := mkState {
  board : Board;
  turn : Player;
  phase : Phase;
  input : list string
}.

(** The tail of an outer iteration: [maybePromote(curR, curC)] and the
    switch of turns. *)
Definition endTurn (b : Board) (pl : Player) (curR curC : Z)
    (inp : list string) : list Event * State :=
  ([EvPromote curR curC; EvSwitch (opponent pl)],
   mkState (maybePromote b curR curC) (opponent pl) TurnStart inp).

(** One iteration of the outer loop, up to the entry of the multi-capture
    loop. *)
Definition turnStep (b : Board) (pl : Player) (inp : list string)
    : list Event * State :=
  if countPieces b WHITE =? 0 then
    ([EvGameOver BLACK NoPieces], mkState b pl (Finished (Win BLACK NoPieces)) inp)
  else if countPieces b BLACK =? 0 then
    ([EvGameOver WHITE NoPieces], mkState b pl (Finished (Win WHITE NoPieces)) inp)
  else
    let legal := allLegalMoves b pl in
    match legal with
    | [] =>
        ([EvGameOver (opponent pl) NoLegalMoves],
         mkState b pl (Finished (Win (opponent pl) NoLegalMoves)) inp)
    | _ :: _ =>
        match inp with
        | t1 :: t2 :: rest =>
            let reject why := ([EvReject why], mkState b pl TurnStart rest) in
            match parseSquare t1, parseSquare t2 with
            | Some (fr', fc'), Some (tr', tc') =>
                if negb (isDarkSquare tr' tc') then reject NotDarkSquare
                else if negb (belongsTo (cellAt b fr' fc') pl) then reject NotOwnPiece
                else if negb (Piece_eqb (cellAt b tr' tc') EMPTY)
                then reject DestinationOccupied
                else
                  match find (fun m => sameMove m fr' fc' tr' tc') legal with
                  | None => reject IllegalMove
                  | Some mv =>
                      let b' := applyMove b mv in
                      let curR := tr mv in
                      let curC := tc mv in
                      if isCapture mv then
                        ([EvApply mv], mkState b' pl (Chain curR curC) rest)
                      else
                        let '(evs, s') := endTurn b' pl curR curC rest in
                        (EvApply mv :: evs, s')
                  end
            | _, _ => reject InvalidFormat
            end
        | _ =>
            (* [cin >> t1 >> t2] fails: break *)
            ([EvEndOfInput], mkState b pl (Finished EndOfInput) [])
        end
    end.

(** One iteration of the multi-capture loop.  The read [cin >> tnext] is
    not checked: on an exhausted stream [tnext] stays empty. *)
Definition chainStep (b : Board) (pl : Player) (curR curC : Z)
    (inp : list string) : list Event * State :=
  let nextCaps := captureMovesFrom b curR curC pl in
  match nextCaps with
  | [] => endTurn b pl curR curC inp
  | _ :: _ =>
      let tnext := match inp with [] => EmptyString | t :: _ => t end in
      let rest := match inp with [] => [] | _ :: rest => rest end in
      let reject why := ([EvReject why], mkState b pl (Chain curR curC) rest) in
      match parseSquare tnext with
      | None => reject BadSquare
      | Some (nr, nc) =>
          match find (fun m => (tr m =? nr) && (tc m =? nc)) nextCaps with
          | None => reject MustContinue
          | Some m =>
              ([EvApply m], mkState (applyMove b m) pl (Chain (tr m) (tc m)) rest)
          end
      end
  end.

Definition step (s : State) : list Event * State :=
  match phase s with
  | TurnStart => turnStep (board s) (turn s) (input s)
  | Chain curR curC => chainStep (board s) (turn s) curR curC (input s)
  | Finished _ => ([], s)
  end.

(** [n] iterations, with the events they produce. *)
Fixpoint run (n : nat) (s : State) : list Event * State :=
  match n with
  | O => ([], s)
  | S n' =>
      let '(evs, s') := step s in
      let '(evs', s'') := run n' s' in
      (evs ++ evs', s'')
  end.

(** [main] after [initBoard()] and [Player turn = WHITE]. *)
Definition initState (inp : list string) : State :=
  mkState startBoard WHITE TurnStart inp.

(** [main] on the input [inp], for [fuel] iterations of its loops. *)
Definition main (fuel : nat) (inp : list string) : list Event * State :=
  run fuel (initState inp).

(** The states [main] can be in, whatever the input. *)
Inductive reachable : State -> Prop :=
| reach_init inp : reachable (initState inp)
| reach_step s : reachable s -> reachable (snd (step s)).

(** ** Printing a square *)

(** [char(x)]: the conversion of an [int] to an 8-bit [char]. *)
Definition toChar (x : Z) : ascii := ascii_of_N (Z.to_N (x mod 256)).

(** [sqToStr(r, c)]: [s += char('a' + c); s += char('1' + r)]. *)
Definition sqToStr (r c : Z) : string :=
  String (toChar (97 + c)) (String (toChar (49 + r)) EmptyString).

(** ** Rendering *)

(** [pieceStr]; its [default] branch is never taken on a [Piece]. *)
Definition pieceStr (p : Piece) : string :=
  match p with
  | EMPTY => "    "
  | W_MAN => " WB "
  | W_KING => " WK "
  | B_MAN => " BM "
  | B_KING => " BK "
  end.

(** The newline character. *)
Definition nl : string := String "010"%char EmptyString.

(** [cout << n] for an [int]: its decimal digits. *)
Definition showInt (n : Z) : string := NilZero.string_of_int (Z.to_int n).

(** The text [printBoard] writes to [cout]. *)
Definition printBoard (b : Board) : string :=
  let out := ("  +----+----+----+----+----+----+----+----+" ++ nl)%string in
  let out :=
    forZ 0 8 (fun r out =>
      let out := (out ++ showInt (r + 1) ++ " |")%string in
      let out :=
        forZ 0 8 (fun c out =>
          (out ++ pieceStr (cellAt b r c) ++ "|")%string) out in
      (out ++ nl ++ "  +----+----+----+----+----+----+----+----+" ++ nl)%string)
      out in
  (out ++ "    a    b    c    d    e    f    g    h" ++ nl)%string.

(** * Notions used in the statements *)

(** The squares of the board in scan order (row-major). *)
Definition allPositions : list (Z * Z) :=
  flat_map (fun r => map (pair r) (seqZ 0 8)) (seqZ 0 8).

(** The capture from [(r, c)] in direction [(dr, dc)]. *)
Definition captureTo (r c dr dc : Z) : Move :=
  mkMove r c (r + 2 * dr) (c + 2 * dc) true (r + dr) (c + dc).

(** The single step from [(r, c)] in direction [(dr, dc)]. *)
Definition stepTo (r c dr dc : Z) : Move :=
  mkMove r c (r + dr) (c + dc) false (-1) (-1).

(** What one iteration of the loop of [captureMovesFrom] pushes. *)
Definition captureIn (b : Board) (r c : Z) (p : Piece) (d : Z * Z) : list Move :=
  let '(dr, dc) := d in
  if inBounds (r + dr) (c + dc) && inBounds (r + 2 * dr) (c + 2 * dc)
     && Piece_eqb (cellAt b (r + 2 * dr) (c + 2 * dc)) EMPTY
     && isEnemy p (cellAt b (r + dr) (c + dc))
  then [captureTo r c dr dc] else [].

(** What one iteration of the loop of [simpleMovesFrom] pushes. *)
Definition simpleIn (b : Board) (r c : Z) (d : Z * Z) : list Move :=
  let '(dr, dc) := d in
  if inBounds (r + dr) (c + dc) && Piece_eqb (cellAt b (r + dr) (c + dc)) EMPTY
  then [stepTo r c dr dc] else [].

(** Every direction a piece can have is one of the four diagonals. *)
Definition diagonals : list (Z * Z) := [(1, 1); (1, -1); (-1, 1); (-1, -1)].

(** The squares holding a piece of [pl], in scan order. *)
Definition ownedPositions (b : Board) (pl : Player) : list (Z * Z) :=
  List.filter (fun '(r, c) => belongsTo (cellAt b r c) pl) allPositions.

(** A position with a capture for WHITE: a white man on (2,1), black men
    on (3,2) and (5,0). *)
Definition captureBoard : Board :=
  setCell (setCell (setCell zeroBoard 2 1 W_MAN) 3 2 B_MAN) 5 0 B_MAN.

(** The direction set of a piece, in the words of the rules: sideways
    either way; for a king either way along the rows, for a man towards
    increasing rows for WHITE and decreasing rows for BLACK. *)
Definition inDirectionSet (p : Piece) (pl : Player) (dr dc : Z) : Prop :=
  (dc = 1 \/ dc = -1) /\
  if isKing p then dr = 1 \/ dr = -1
  else match pl with WHITE => dr = 1 | BLACK => dr = -1 end.

(** The captured square of [mv] lies strictly between origin and
    destination on one diagonal: destination two rows and two columns
    away, the captured square half-way. *)
Definition strictlyBetween (mv : Move) : Prop :=
  (tr mv - fr mv = 2 \/ tr mv - fr mv = -2) /\
  (tc mv - fc mv = 2 \/ tc mv - fc mv = -2) /\
  2 * cr mv = fr mv + tr mv /\
  2 * cc mv = fc mv + tc mv.

(** The effect of [applyMove] on the board, cell by cell: the destination
    receives what the origin held, the origin and (for a capture) the
    captured position become EMPTY, every other cell keeps its value. *)
Definition applyMove_effect (b : Board) (mv : Move) : Prop :=
  let b' := applyMove b mv in
  cellAt b' (tr mv) (tc mv) = cellAt b (fr mv) (fc mv) /\
  cellAt b' (fr mv) (fc mv) = EMPTY /\
  (isCapture mv = true -> cellAt b' (cr mv) (cc mv) = EMPTY) /\
  (forall r c,
     (r, c) <> (tr mv, tc mv) ->
     (r, c) <> (fr mv, fc mv) ->
     (isCapture mv = true -> (r, c) <> (cr mv, cc mv)) ->
     cellAt b' r c = cellAt b r c).

(** The token the multi-capture loop reads, and what is left after it. *)
Definition nextToken (inp : list string) : string :=
  match inp with [] => EmptyString | t :: _ => t end.

Definition afterToken (inp : list string) : list string :=
  match inp with [] => [] | _ :: rest => rest end.

(** A double jump for WHITE: from (2,1) over (3,2) to (4,3), then over
    (5,4) to (6,5); one more black man stands on (7,0). *)
Definition doubleJumpBoard : Board :=
  setCell (setCell (setCell (setCell zeroBoard 2 1 W_MAN) 3 2 B_MAN) 5 4 B_MAN)
    7 0 B_MAN.



(** One iteration of the loops as a relation: the events and the next
    state, case by case. *)
Inductive StepCase (s : State) : list Event -> State -> Prop :=
| CaseFinished o :
    phase s = Finished o -> StepCase s [] s
| CaseGameOver w why :
    phase s = TurnStart ->
    StepCase s [EvGameOver w why]
      (mkState (board s) (turn s) (Finished (Win w why)) (input s))
| CaseEndOfInput :
    phase s = TurnStart ->
    StepCase s [EvEndOfInput]
      (mkState (board s) (turn s) (Finished EndOfInput) [])
| CaseReject why inp' :
    (forall o, phase s <> Finished o) ->
    StepCase s [EvReject why] (mkState (board s) (turn s) (phase s) inp')
| CaseFirstCapture mv inp' :
    phase s = TurnStart ->
    In mv (allLegalMoves (board s) (turn s)) -> isCapture mv = true ->
    StepCase s [EvApply mv]
      (mkState (applyMove (board s) mv) (turn s) (Chain (tr mv) (tc mv)) inp')
| CaseSimple mv inp' :
    phase s = TurnStart ->
    In mv (allLegalMoves (board s) (turn s)) -> isCapture mv = false ->
    StepCase s
      [EvApply mv; EvPromote (tr mv) (tc mv); EvSwitch (opponent (turn s))]
      (mkState (maybePromote (applyMove (board s) mv) (tr mv) (tc mv))
         (opponent (turn s)) TurnStart inp')
| CaseNextCapture curR curC m inp' :
    phase s = Chain curR curC ->
    In m (captureMovesFrom (board s) curR curC (turn s)) ->
    StepCase s [EvApply m]
      (mkState (applyMove (board s) m) (turn s) (Chain (tr m) (tc m)) inp')
| CaseChainEnd curR curC :
    phase s = Chain curR curC ->
    captureMovesFrom (board s) curR curC (turn s) = [] ->
    StepCase s [EvPromote curR curC; EvSwitch (opponent (turn s))]
      (mkState (maybePromote (board s) curR curC) (opponent (turn s))
         TurnStart (input s)).

(** Every piece stands on a dark square. *)
Definition darkOnly (b : Board) : Prop :=
  forall r c, inBounds r c = true -> cellAt b r c <> EMPTY ->
    isDarkSquare r c = true.

Definition darkOnlyb (b : Board) : bool :=
  forallb (fun '(r, c) => Piece_eqb (cellAt b r c) EMPTY || isDarkSquare r c)
    allPositions.

(** What holds at every control point of [main]: the board has its shape,
    pieces stand on dark squares, at the start of a turn the player who is
    not to move has a piece, and in a chain the current square holds a
    piece of the mover. *)
Definition Inv (s : State) : Prop :=
  wfBoard (board s) /\ darkOnly (board s) /\
  match phase s with
  | TurnStart =>
      exists r c, inBounds r c = true /\
        belongsTo (cellAt (board s) r c) (opponent (turn s)) = true
  | Chain curR curC =>
      inBounds curR curC = true /\
      belongsTo (cellAt (board s) curR curC) (turn s) = true
  | Finished _ => True
  end.

(** A complete game that BLACK wins by taking the last white piece (39
    iterations of the loops; it has three multi-captures and two
    promotions). *)
Definition gameNoPieces : list string :=
  ["f3"; "g4"; "g6"; "f5"; "e2"; "f3"; "e6"; "d5"; "g4"; "e6"; "d7"; "f5";
   "h3"; "g4"; "f5"; "h3"; "d1"; "e2"; "c6"; "b5"; "f3"; "e4"; "d5"; "f3";
   "d1"; "b3"; "c4"; "d1"; "b3"; "d5"; "b1"; "c2"; "b7"; "c6"; "f1"; "e2";
   "h3"; "f1"; "a2"; "b3"; "c8"; "b7"; "b3"; "c4"; "d5"; "b3"; "d1"; "f3";
   "h1"; "g2"; "f1"; "h3"; "d3"; "c4"; "b5"; "d3"]%string.

(** A complete game that BLACK wins because WHITE, with pieces left,
    cannot move (41 iterations). *)
Definition gameNoMoves : list string :=
  ["h3"; "g4"; "a6"; "b5"; "b3"; "c4"; "e6"; "f5"; "c4"; "a6"; "f5"; "h3";
   "d3"; "c4"; "f7"; "e6"; "c2"; "d3"; "c6"; "d5"; "d1"; "c2"; "d5"; "b3";
   "d1"; "f3"; "e4"; "d1"; "f3"; "d5"; "d3"; "e4"; "d5"; "f3"; "g2"; "e4";
   "e6"; "f5"; "b1"; "c2"; "f5"; "d3"; "b1"; "a2"; "b3"; "b1"; "a2"; "f1";
   "e2"; "a2"; "c4"; "e2"; "d3"; "c4"; "e2"; "h1"; "g2"; "h3"; "f1"]%string.

(** How an iteration at the head of the outer loop declares the game
    over. *)
Definition declares (s : State) (w : Player) (why : WinReason) : Prop :=
  step s = ([EvGameOver w why],
            mkState (board s) (turn s) (Finished (Win w why)) (input s)).


(** Tokens without a letter, and without a digit. *)
Fixpoint noAlpha (t : string) : bool :=
  match t with
  | EmptyString => true
  | String ch rest => negb (isalpha (charCode ch)) && noAlpha rest
  end.

Fixpoint noDigit (t : string) : bool :=
  match t with
  | EmptyString => true
  | String ch rest => negb (isdigit (charCode ch)) && noDigit rest
  end.

(** A token with every character put through [tolower]. *)
Fixpoint lowerToken (t : string) : string :=
  match t with
  | EmptyString => EmptyString
  | String ch rest => String (toChar (tolower (charCode ch))) (lowerToken rest)
  end.

(** What every legal move looks like. *)
Definition wellFormedMove (b : Board) (pl : Player) (mv : Move) : Prop :=
  inBounds (fr mv) (fc mv) = true /\
  belongsTo (cellAt b (fr mv) (fc mv)) pl = true /\
  inBounds (tr mv) (tc mv) = true /\
  cellAt b (tr mv) (tc mv) = EMPTY /\
  (isKing (cellAt b (fr mv) (fc mv)) = false ->
     0 < (tr mv - fr mv) * forwardDir pl) /\
  if isCapture mv
  then strictlyBetween mv /\
       belongsTo (cellAt b (cr mv) (cc mv)) (opponent pl) = true
  else (tr mv - fr mv = 1 \/ tr mv - fr mv = -1) /\
       (tc mv - fc mv = 1 \/ tc mv - fc mv = -1) /\
       (cr mv, cc mv) = (-1, -1).

(** A man standing on its promotion row without having been crowned. *)
Definition uncrowned (b : Board) (r c : Z) : Prop :=
  (cellAt b r c = W_MAN /\ r = 7) \/ (cellAt b r c = B_MAN /\ r = 0).

(** The standard start position, cell by cell. *)
Definition startCell (r c : Z) : Piece :=
  if isDarkSquare r c
  then if r <? 3 then W_MAN else if 5 <=? r then B_MAN else EMPTY
  else EMPTY.

(** The two letters [pieceStr] shows between its blanks. *)
Definition pieceLetters (p : Piece) : ascii * ascii :=
  match p with
  | EMPTY => (" ", " ")
  | W_MAN => ("W", "B")
  | W_KING => ("W", "K")
  | B_MAN => ("B", "M")
  | B_KING => ("B", "K")
  end%char.

(** Where the text of cell [(r, c)] starts in the output of [printBoard]:
    lines are 44 characters long with their newline, row [r] is the line
    after [2 * r + 1] others, and its cells start at column 3, five
    characters apart. *)
Definition cellOffset (r c : Z) : nat := Z.to_nat (44 * (2 * r + 1) + 3 + 5 * c).

(** * Properties *)

(** ** The board accessors *)

Lemma inBounds_spec r c :
  inBounds r c = true <-> 0 <= r < 8 /\ 0 <= c < 8.
Proof. unfold inBounds. rewrite !andb_true_iff. lia. Qed.

Lemma inBounds_false r c :
  inBounds r c = false <-> ~ (0 <= r < 8 /\ 0 <= c < 8).
Proof.
  rewrite <- inBounds_spec. destruct (inBounds r c); intuition congruence.
Qed.

Lemma Piece_eqb_eq a b : Piece_eqb a b = true <-> a = b.
Proof. destruct a, b; simpl; split; congruence. Qed.

Lemma Piece_eqb_neq a b : Piece_eqb a b = false <-> a <> b.
Proof. destruct a, b; simpl; split; congruence. Qed.

Lemma wfBoardb_spec b : wfBoardb b = true <-> wfBoard b.
Proof.
  unfold wfBoardb, wfBoard.
  rewrite andb_true_iff, Nat.eqb_eq, forallb_forall, List.Forall_forall.
  split; intros [H1 H2]; split; auto; intros x Hx; apply Nat.eqb_eq; auto.
Qed.

Lemma wfBoard_setCell b r c v : wfBoard b -> wfBoard (setCell b r c v).
Proof.
  unfold wfBoard, setCell. intros [Hl Hr].
  destruct (inBounds r c); [|done]. split.
  - by rewrite length_alter.
  - rewrite Forall_lookup in Hr |- *. intros i row Hi.
    destruct (decide (Z.to_nat r = i)) as [<-|Hne].
    + rewrite list_lookup_alter_eq in Hi.
      destruct (b !! Z.to_nat r) as [row0|] eqn:E; simplify_eq/=.
      rewrite length_insert. eauto.
    + rewrite list_lookup_alter_ne in Hi by done. eauto.
Qed.

Lemma cellAt_setCell_eq b r c v :
  wfBoard b -> inBounds r c = true -> cellAt (setCell b r c v) r c = v.
Proof.
  intros [Hl Hr] Hin. unfold cellAt, setCell. rewrite Hin.
  apply inBounds_spec in Hin.
  rewrite list_lookup_alter_eq.
  destruct (lookup_lt_is_Some_2 b (Z.to_nat r)) as [row Hrow]; [lia|].
  rewrite Hrow. simpl.
  rewrite list_lookup_insert_eq; [done|].
  rewrite Forall_lookup in Hr. rewrite (Hr _ _ Hrow). lia.
Qed.

Lemma cellAt_setCell_ne b r c v r' c' :
  (r, c) <> (r', c') -> cellAt (setCell b r c v) r' c' = cellAt b r' c'.
Proof.
  intros Hne. unfold cellAt, setCell.
  destruct (inBounds r' c') eqn:Hin'; [|done].
  destruct (inBounds r c) eqn:Hin; [|done].
  apply inBounds_spec in Hin, Hin'.
  destruct (decide (Z.to_nat r = Z.to_nat r')) as [Er|Er].
  - rewrite <- Er, list_lookup_alter_eq.
    destruct (b !! Z.to_nat r) as [row|]; [|done]. simpl.
    rewrite list_lookup_insert_ne; [done|].
    intros Ec. apply Hne. f_equal; lia.
  - by rewrite list_lookup_alter_ne.
Qed.

(** Reading after a write inside the array. *)
Lemma cellAt_setCell b r c v r' c' :
  wfBoard b -> inBounds r c = true ->
  cellAt (setCell b r c v) r' c' =
    if (r =? r') && (c =? c') then v else cellAt b r' c'.
Proof.
  intros Hwf Hin.
  destruct ((r =? r') && (c =? c')) eqn:E.
  - apply andb_true_iff in E as [->%Z.eqb_eq ->%Z.eqb_eq].
    by apply cellAt_setCell_eq.
  - apply cellAt_setCell_ne. intros [= -> ->].
    by rewrite !Z.eqb_refl in E.
Qed.

Lemma cellAt_outside b r c : inBounds r c = false -> cellAt b r c = EMPTY.
Proof. unfold cellAt. by intros ->. Qed.

Lemma wfBoard_applyMove b mv : wfBoard b -> wfBoard (applyMove b mv).
Proof.
  intros H. unfold applyMove.
  destruct (isCapture mv); auto using wfBoard_setCell.
Qed.

Lemma wfBoard_maybePromote b r c : wfBoard b -> wfBoard (maybePromote b r c).
Proof.
  intros H. unfold maybePromote.
  repeat match goal with |- context [if ?x then _ else _] => destruct x end;
    auto using wfBoard_setCell.
Qed.

Lemma wfBoard_startBoard : wfBoard startBoard.
Proof. apply wfBoardb_spec. vm_compute. reflexivity. Qed.

Ltac destruct_length8 l H :=
  do 8 (destruct l as [|? l]; [discriminate H|]);
  destruct l; [clear H|discriminate H].

(** [initBoard] overwrites every cell: whatever the array held before, the
    result is the start position. *)
Lemma initBoard_any b : wfBoard b -> initBoard b = startBoard.
Proof.
  intros [Hl Hr].
  destruct_length8 b Hl.
  repeat match goal with
         | H : Forall _ (_ :: _) |- _ =>
             let H1 := fresh "Hrow" in
             apply Forall_cons in H as [H1 H]
         end.
  clear Hr.
  repeat match goal with
         | H : length ?row = 8%nat |- _ => destruct_length8 row H
         end.
  vm_compute. reflexivity.
Qed.

(** ** Loops that append to a vector *)

Lemma fold_left_append {A X : Type} (f : list A -> X -> list A)
    (g : X -> list A) (l : list X) (init : list A) :
  (forall acc x, f acc x = acc ++ g x) ->
  fold_left f l init = init ++ flat_map g l.
Proof.
  intros Hf. revert init.
  induction l as [|x l IH]; intros init; simpl.
  - by rewrite app_nil_r.
  - by rewrite IH, Hf, <- app_assoc.
Qed.

Lemma forZ_append {A : Type} lo n (body : Z -> list A -> list A)
    (g : Z -> list A) (init : list A) :
  (forall i acc, body i acc = acc ++ g i) ->
  forZ lo n body init = init ++ flat_map g (seqZ lo n).
Proof. intros H. unfold forZ. by apply fold_left_append. Qed.

Lemma flat_map_flat_map {A B C : Type} (f : A -> list B) (g : B -> list C) l :
  flat_map g (flat_map f l) = flat_map (fun a => flat_map g (f a)) l.
Proof.
  induction l as [|a l IH]; simpl; [done|].
  by rewrite flat_map_app, IH.
Qed.

Lemma flat_map_map {A B C : Type} (f : A -> B) (g : B -> list C) l :
  flat_map g (map f l) = flat_map (fun a => g (f a)) l.
Proof. induction l as [|a l IH]; simpl; [done|]. by rewrite IH. Qed.

(** Two nested [for] loops over the board that append [g r c]. *)
Lemma scan_append {A : Type} (g : Z -> Z -> list A) :
  forZ 0 8 (fun r res => forZ 0 8 (fun c res => res ++ g r c) res) [] =
  flat_map (fun '(r, c) => g r c) allPositions.
Proof.
  rewrite (forZ_append 0 8 _ (fun r => flat_map (g r) (seqZ 0 8))).
  - unfold allPositions. rewrite flat_map_flat_map, app_nil_l.
    apply flat_map_ext. intros r. by rewrite flat_map_map.
  - intros r acc. by apply forZ_append.
Qed.

Lemma In_allPositions r c : In (r, c) allPositions <-> inBounds r c = true.
Proof.
  unfold allPositions. rewrite in_flat_map, inBounds_spec. split.
  - intros (r' & Hr & Hc). apply in_map_iff in Hc as (c' & [= <- <-] & Hc).
    apply list_elem_of_In, elem_of_seqZ in Hr.
    apply list_elem_of_In, elem_of_seqZ in Hc. lia.
  - intros [Hr Hc]. exists r. split.
    + apply list_elem_of_In, elem_of_seqZ. lia.
    + apply in_map. apply list_elem_of_In, elem_of_seqZ. lia.
Qed.

(** ** The generators, direction by direction *)

Lemma captureMovesFrom_unfold b r c pl :
  captureMovesFrom b r c pl =
    if belongsTo (cellAt b r c) pl
    then flat_map (captureIn b r c (cellAt b r c)) (dirsOf (cellAt b r c) pl)
    else [].
Proof.
  unfold captureMovesFrom.
  destruct (belongsTo (cellAt b r c) pl); simpl; [|done].
  rewrite (fold_left_append _ (captureIn b r c (cellAt b r c))); [done|].
  intros acc [dr dc]. unfold captureIn, captureTo.
  destruct (inBounds (r + dr) (c + dc)); simpl; [|by rewrite app_nil_r].
  destruct (inBounds (r + 2 * dr) (c + 2 * dc)); simpl; [|by rewrite app_nil_r].
  destruct (Piece_eqb (cellAt b (r + 2 * dr) (c + 2 * dc)) EMPTY); simpl;
    [|by rewrite app_nil_r].
  destruct (isEnemy _ _); [done|by rewrite app_nil_r].
Qed.

Lemma simpleMovesFrom_unfold b r c pl :
  simpleMovesFrom b r c pl =
    if belongsTo (cellAt b r c) pl
    then flat_map (simpleIn b r c) (dirsOf (cellAt b r c) pl)
    else [].
Proof.
  unfold simpleMovesFrom.
  destruct (belongsTo (cellAt b r c) pl); simpl; [|done].
  rewrite (fold_left_append _ (simpleIn b r c)); [done|].
  intros acc [dr dc]. unfold simpleIn, stepTo.
  destruct (inBounds (r + dr) (c + dc)); simpl; [|by rewrite app_nil_r].
  destruct (Piece_eqb (cellAt b (r + dr) (c + dc)) EMPTY); simpl;
    [done|by rewrite app_nil_r].
Qed.

Lemma allCaptures_unfold b pl :
  allCaptures b pl =
    flat_map (fun '(r, c) => captureMovesFrom b r c pl) allPositions.
Proof. unfold allCaptures. apply scan_append. Qed.

Lemma allLegalMoves_unfold b pl :
  allLegalMoves b pl =
    match allCaptures b pl with
    | [] => flat_map (fun '(r, c) => simpleMovesFrom b r c pl) allPositions
    | caps => caps
    end.
Proof.
  unfold allLegalMoves. destruct (allCaptures b pl); [|done].
  apply scan_append.
Qed.

Lemma dirsOf_diagonal p pl d : In d (dirsOf p pl) -> In d diagonals.
Proof.
  unfold dirsOf, diagonals, forwardDir.
  destruct (isKing p); [done|]. destruct pl; simpl; intuition.
Qed.

Lemma In_captureIn b r c p d m :
  In m (captureIn b r c p d) <->
    m = captureTo r c (fst d) (snd d) /\
    inBounds (r + fst d) (c + snd d) = true /\
    inBounds (r + 2 * fst d) (c + 2 * snd d) = true /\
    cellAt b (r + 2 * fst d) (c + 2 * snd d) = EMPTY /\
    isEnemy p (cellAt b (r + fst d) (c + snd d)) = true.
Proof.
  destruct d as [dr dc]. unfold captureIn. simpl.
  destruct (inBounds (r + dr) (c + dc)); simpl; [|intuition congruence].
  destruct (inBounds (r + 2 * dr) (c + 2 * dc)); simpl; [|intuition congruence].
  destruct (Piece_eqb _ EMPTY) eqn:E; simpl.
  - apply Piece_eqb_eq in E.
    destruct (isEnemy _ _); simpl; intuition congruence.
  - apply Piece_eqb_neq in E. intuition congruence.
Qed.

Lemma In_simpleIn b r c d m :
  In m (simpleIn b r c d) <->
    m = stepTo r c (fst d) (snd d) /\
    inBounds (r + fst d) (c + snd d) = true /\
    cellAt b (r + fst d) (c + snd d) = EMPTY.
Proof.
  destruct d as [dr dc]. unfold simpleIn. simpl.
  destruct (inBounds (r + dr) (c + dc)); simpl; [|intuition congruence].
  destruct (Piece_eqb _ EMPTY) eqn:E; simpl.
  - apply Piece_eqb_eq in E. intuition congruence.
  - apply Piece_eqb_neq in E. intuition congruence.
Qed.

(** Membership in the output of the two generators. *)
Lemma In_captureMovesFrom b r c pl m :
  In m (captureMovesFrom b r c pl) <->
    belongsTo (cellAt b r c) pl = true /\
    exists dr dc, In (dr, dc) (dirsOf (cellAt b r c) pl) /\
      m = captureTo r c dr dc /\
      inBounds (r + dr) (c + dc) = true /\
      inBounds (r + 2 * dr) (c + 2 * dc) = true /\
      cellAt b (r + 2 * dr) (c + 2 * dc) = EMPTY /\
      isEnemy (cellAt b r c) (cellAt b (r + dr) (c + dc)) = true.
Proof.
  rewrite captureMovesFrom_unfold.
  destruct (belongsTo (cellAt b r c) pl).
  - rewrite in_flat_map. split.
    + intros ([dr dc] & Hd & Hm). apply In_captureIn in Hm. simpl in Hm.
      split; [done|]. exists dr, dc. tauto.
    + intros (_ & dr & dc & Hd & Hm). exists (dr, dc). split; [done|].
      apply In_captureIn. simpl. tauto.
  - simpl. intuition congruence.
Qed.

Lemma In_simpleMovesFrom b r c pl m :
  In m (simpleMovesFrom b r c pl) <->
    belongsTo (cellAt b r c) pl = true /\
    exists dr dc, In (dr, dc) (dirsOf (cellAt b r c) pl) /\
      m = stepTo r c dr dc /\
      inBounds (r + dr) (c + dc) = true /\
      cellAt b (r + dr) (c + dc) = EMPTY.
Proof.
  rewrite simpleMovesFrom_unfold.
  destruct (belongsTo (cellAt b r c) pl).
  - rewrite in_flat_map. split.
    + intros ([dr dc] & Hd & Hm). apply In_simpleIn in Hm. simpl in Hm.
      split; [done|]. exists dr, dc. tauto.
    + intros (_ & dr & dc & Hd & Hm). exists (dr, dc). split; [done|].
      apply In_simpleIn. simpl. tauto.
  - simpl. intuition congruence.
Qed.

Lemma In_allCaptures b pl m :
  In m (allCaptures b pl) <->
    exists r c, inBounds r c = true /\ In m (captureMovesFrom b r c pl).
Proof.
  rewrite allCaptures_unfold, in_flat_map. split.
  - intros ([r c] & Hp & Hm). exists r, c. by rewrite <- In_allPositions.
  - intros (r & c & Hp & Hm). exists (r, c). by rewrite In_allPositions.
Qed.

(** ** Ownership *)

Lemma belongsTo_EMPTY pl : belongsTo EMPTY pl = false.
Proof. done. Qed.

Lemma belongsTo_not_EMPTY p pl : belongsTo p pl = true -> p <> EMPTY.
Proof. by destruct p. Qed.

Lemma belongsTo_opponent p pl :
  belongsTo p pl = true -> belongsTo p (opponent pl) = false.
Proof. by destruct p, pl. Qed.

(** For a piece of [pl], the enemies are the pieces of the opponent. *)
Lemma isEnemy_belongsTo p q pl :
  belongsTo p pl = true -> isEnemy p q = belongsTo q (opponent pl).
Proof. by destruct p, q, pl. Qed.

Lemma isEnemy_not_EMPTY p q : isEnemy p q = true -> p <> EMPTY /\ q <> EMPTY.
Proof. by destruct p, q. Qed.

Lemma flat_map_filter {A B : Type} (P : A -> bool) (f : A -> list B) l :
  (forall x, P x = false -> f x = []) ->
  flat_map f (List.filter P l) = flat_map f l.
Proof.
  intros H. induction l as [|x l IH]; simpl; [done|].
  destruct (P x) eqn:E; simpl; rewrite IH; [done|].
  by rewrite (H x E).
Qed.

(** ** The move generator *)

(** C10: on a square of the board whose cell is EMPTY or holds a piece of
    the other player, [captureMovesFrom] and [simpleMovesFrom] both return
    the empty sequence; this covers light squares as well. *)
Theorem generators_empty_on_foreign_cell (b : Board) (r c : Z) (pl : Player) :
  inBounds r c = true ->
  cellAt b r c = EMPTY \/ belongsTo (cellAt b r c) pl = false ->
  captureMovesFrom b r c pl = [] /\ simpleMovesFrom b r c pl = [].
Proof.
  intros _ H.
  assert (Hb : belongsTo (cellAt b r c) pl = false).
  { destruct H as [H|H]; [by rewrite H|done]. }
  unfold captureMovesFrom, simpleMovesFrom. by rewrite Hb.
Qed.

Lemma generators_empty_on_foreign_cell_witness :
  (captureMovesFrom startBoard 3 3 WHITE = [] /\
   simpleMovesFrom startBoard 3 3 WHITE = []) /\
  (captureMovesFrom startBoard 5 0 WHITE = [] /\
   simpleMovesFrom startBoard 5 0 WHITE = []).
Proof.
  split.
  - apply (generators_empty_on_foreign_cell startBoard 3 3 WHITE);
      [reflexivity | left; reflexivity].
  - apply (generators_empty_on_foreign_cell startBoard 5 0 WHITE);
      [reflexivity | right; reflexivity].
Defined.

Lemma allCaptures_owned b pl :
  allCaptures b pl =
    flat_map (fun '(r, c) => captureMovesFrom b r c pl) (ownedPositions b pl).
Proof.
  rewrite allCaptures_unfold. unfold ownedPositions.
  rewrite flat_map_filter; [done|].
  intros [r c] H. unfold captureMovesFrom. by rewrite H.
Qed.

Lemma allCaptures_isCapture b pl :
  Forall (fun m => isCapture m = true) (allCaptures b pl).
Proof.
  apply List.Forall_forall. intros m Hm.
  apply (proj1 (In_allCaptures _ _ _)) in Hm as (r & c & _ & Hm).
  apply (proj1 (In_captureMovesFrom _ _ _ _ _)) in Hm
    as (_ & dr & dc & _ & -> & _).
  done.
Qed.

Lemma simpleMovesFrom_not_capture b r c pl :
  Forall (fun m => isCapture m = false) (simpleMovesFrom b r c pl).
Proof.
  apply List.Forall_forall. intros m Hm.
  apply (proj1 (In_simpleMovesFrom _ _ _ _ _)) in Hm
    as (_ & dr & dc & _ & -> & _).
  done.
Qed.

(** C1: when [allCaptures] is non-empty, [allLegalMoves] returns exactly
    that list, and every move in it is a capture; otherwise it returns the
    simple moves of all the squares holding a piece of the player, in scan
    order. *)
Theorem allLegalMoves_mandatory_capture (b : Board) (pl : Player) :
  (allCaptures b pl <> [] ->
     allLegalMoves b pl = allCaptures b pl /\
     Forall (fun m => isCapture m = true) (allLegalMoves b pl)) /\
  (allCaptures b pl = [] ->
     allLegalMoves b pl =
       flat_map (fun '(r, c) => simpleMovesFrom b r c pl) (ownedPositions b pl) /\
     Forall (fun m => isCapture m = false) (allLegalMoves b pl)).
Proof.
  rewrite allLegalMoves_unfold. split.
  - intros Hne. destruct (allCaptures b pl) eqn:E; [done|].
    split; [done|]. rewrite <- E. apply allCaptures_isCapture.
  - intros ->.
    assert (Heq : flat_map (fun '(r, c) => simpleMovesFrom b r c pl) allPositions
                = flat_map (fun '(r, c) => simpleMovesFrom b r c pl)
                    (ownedPositions b pl)).
    { unfold ownedPositions. rewrite flat_map_filter; [done|].
      intros [r c] H. unfold simpleMovesFrom. by rewrite H. }
    split; [done|].
    apply List.Forall_forall. intros m Hm.
    apply (proj1 (in_flat_map _ _ _)) in Hm as ([r c] & _ & Hm).
    pose proof (simpleMovesFrom_not_capture b r c pl) as HF.
    rewrite List.Forall_forall in HF. by apply HF.
Qed.

Lemma allLegalMoves_mandatory_capture_witness :
  (allLegalMoves captureBoard WHITE = allCaptures captureBoard WHITE /\
   Forall (fun m => isCapture m = true) (allLegalMoves captureBoard WHITE)) /\
  (allLegalMoves startBoard WHITE =
     flat_map (fun '(r, c) => simpleMovesFrom startBoard r c WHITE)
       (ownedPositions startBoard WHITE) /\
   Forall (fun m => isCapture m = false) (allLegalMoves startBoard WHITE)).
Proof.
  split.
  - apply (proj1 (allLegalMoves_mandatory_capture captureBoard WHITE)).
    vm_compute. discriminate.
  - apply (proj2 (allLegalMoves_mandatory_capture startBoard WHITE)).
    vm_compute. reflexivity.
Defined.

Lemma dirsOf_spec p pl dr dc :
  In (dr, dc) (dirsOf p pl) <-> inDirectionSet p pl dr dc.
Proof.
  unfold dirsOf, inDirectionSet, forwardDir.
  destruct (isKing p); [|destruct pl]; simpl; split.
  all: try (intros [[= <- <-]|[[= <- <-]|[[= <- <-]|[[= <- <-]|[]]]]]; lia).
  all: try (intros [[= <- <-]|[[= <- <-]|[]]]; lia).
  all: intros [[->| ->] H]; try destruct H as [->| ->]; subst; tauto.
Qed.

Lemma captureTo_inj r c dr dc dr' dc' :
  captureTo r c dr dc = captureTo r c dr' dc' -> dr = dr' /\ dc = dc'.
Proof. unfold captureTo. intros [= ? ? ? ?]. lia. Qed.

(** C4: from a square of the board, [captureMovesFrom] emits the capture in
    direction [(dr, dc)] if and only if the square holds a piece of the
    player, the direction is in that piece's direction set, the adjacent
    cell holds a piece of the opponent and the cell two steps along is on
    the board and EMPTY; and it emits nothing but such captures along the
    four diagonals. *)
Theorem captureMovesFrom_iff (b : Board) (r c : Z) (pl : Player) :
  inBounds r c = true ->
  (forall dr dc,
     In (captureTo r c dr dc) (captureMovesFrom b r c pl) <->
       belongsTo (cellAt b r c) pl = true /\
       inDirectionSet (cellAt b r c) pl dr dc /\
       inBounds (r + dr) (c + dc) = true /\
       belongsTo (cellAt b (r + dr) (c + dc)) (opponent pl) = true /\
       inBounds (r + 2 * dr) (c + 2 * dc) = true /\
       cellAt b (r + 2 * dr) (c + 2 * dc) = EMPTY) /\
  (forall m, In m (captureMovesFrom b r c pl) ->
     exists dr dc, In (dr, dc) diagonals /\ m = captureTo r c dr dc).
Proof.
  intros Hin. split.
  - intros dr dc. rewrite In_captureMovesFrom. split.
    + intros (Hb & dr' & dc' & Hd & Hm & H1 & H2 & He & Hen).
      apply captureTo_inj in Hm as [-> ->].
      rewrite (isEnemy_belongsTo _ _ pl Hb) in Hen.
      apply dirsOf_spec in Hd. tauto.
    + intros (Hb & Hd & H1 & Hen & H2 & He).
      split; [done|]. exists dr, dc.
      rewrite (isEnemy_belongsTo _ _ pl Hb).
      apply dirsOf_spec in Hd. tauto.
  - intros m Hm.
    apply (proj1 (In_captureMovesFrom _ _ _ _ _)) in Hm
      as (_ & dr & dc & Hd & -> & _).
    exists dr, dc. split; [|done]. by apply dirsOf_diagonal in Hd.
Qed.

Lemma captureMovesFrom_iff_witness :
  In (captureTo 2 1 1 1) (captureMovesFrom captureBoard 2 1 WHITE) /\
  ~ In (captureTo 2 1 1 (-1)) (captureMovesFrom captureBoard 2 1 WHITE).
Proof.
  pose proof (captureMovesFrom_iff captureBoard 2 1 WHITE eq_refl) as [H _].
  split.
  - apply (proj2 (H 1 1)). vm_compute. intuition.
  - intros Hc. apply (proj1 (H 1 (-1))) in Hc as (_ & _ & _ & Hc & _).
    vm_compute in Hc. discriminate.
Defined.

(** ** The move applicator *)

(** Reading a cell after [applyMove], the writes taken last to first. *)
Lemma cellAt_applyMove b mv r c :
  wfBoard b ->
  inBounds (fr mv) (fc mv) = true ->
  inBounds (tr mv) (tc mv) = true ->
  (isCapture mv = true -> inBounds (cr mv) (cc mv) = true) ->
  cellAt (applyMove b mv) r c =
    if isCapture mv && (cr mv =? r) && (cc mv =? c) then EMPTY
    else if (fr mv =? r) && (fc mv =? c) then EMPTY
    else if (tr mv =? r) && (tc mv =? c) then cellAt b (fr mv) (fc mv)
    else cellAt b r c.
Proof.
  intros Hwf Hf Ht Hc. unfold applyMove.
  destruct (isCapture mv); simpl.
  - by rewrite !cellAt_setCell by auto using wfBoard_setCell.
  - by rewrite !cellAt_setCell by auto using wfBoard_setCell.
Qed.

(** The squares of a generated move. *)
Lemma captureMovesFrom_shape b r c pl m :
  inBounds r c = true -> In m (captureMovesFrom b r c pl) ->
  exists dr dc, In (dr, dc) diagonals /\ m = captureTo r c dr dc /\
    inBounds (tr m) (tc m) = true /\ inBounds (cr m) (cc m) = true.
Proof.
  intros Hin Hm.
  apply (proj1 (In_captureMovesFrom _ _ _ _ _)) in Hm
    as (_ & dr & dc & Hd & -> & H1 & H2 & _).
  exists dr, dc. by apply dirsOf_diagonal in Hd.
Qed.

Lemma simpleMovesFrom_shape b r c pl m :
  inBounds r c = true -> In m (simpleMovesFrom b r c pl) ->
  exists dr dc, In (dr, dc) diagonals /\ m = stepTo r c dr dc /\
    inBounds (tr m) (tc m) = true.
Proof.
  intros Hin Hm.
  apply (proj1 (In_simpleMovesFrom _ _ _ _ _)) in Hm
    as (_ & dr & dc & Hd & -> & H1 & _).
  exists dr, dc. by apply dirsOf_diagonal in Hd.
Qed.

Ltac diagonal_cases H :=
  unfold diagonals in H; simpl in H;
  destruct H as [H|[H|[H|[H|[]]]]]; injection H as <- <-.

(** The captured square of a generated capture. *)
Lemma captured_square b r c pl mv :
  wfBoard b ->
  inBounds r c = true ->
  In mv (captureMovesFrom b r c pl) ->
  isCapture mv = true /\
  (fr mv, fc mv) = (r, c) /\
  strictlyBetween mv /\
  isEnemy (cellAt b (fr mv) (fc mv)) (cellAt b (cr mv) (cc mv)) = true /\
  cellAt (applyMove b mv) (cr mv) (cc mv) = EMPTY.
Proof.
  intros Hwf Hin Hm.
  destruct (captureMovesFrom_shape _ _ _ _ _ Hin Hm)
    as (dr & dc & Hd & Hmv & Ht & Hc).
  apply (proj1 (In_captureMovesFrom _ _ _ _ _)) in Hm
    as (_ & dr' & dc' & _ & Hmv' & _ & _ & _ & Hen).
  rewrite Hmv in Hmv'. apply captureTo_inj in Hmv' as [<- <-].
  subst mv. unfold strictlyBetween, captureTo in *. simpl in *.
  repeat split; try done.
  - diagonal_cases Hd; lia.
  - diagonal_cases Hd; lia.
  - lia.
  - lia.
  - rewrite cellAt_applyMove by (simpl; auto). simpl.
    by rewrite !Z.eqb_refl.
Qed.

(** C5: for every capture move the generator produces from a square of the
    board, the captured position lies strictly between origin and
    destination on the same diagonal, holds an enemy of the moving piece
    before [applyMove], and is EMPTY after it. *)
Theorem capture_removes_enemy (b : Board) (r c : Z) (pl : Player) (mv : Move) :
  wfBoard b ->
  inBounds r c = true ->
  In mv (captureMovesFrom b r c pl) ->
  isCapture mv = true /\
  (fr mv, fc mv) = (r, c) /\
  strictlyBetween mv /\
  isEnemy (cellAt b (fr mv) (fc mv)) (cellAt b (cr mv) (cc mv)) = true /\
  cellAt (applyMove b mv) (cr mv) (cc mv) = EMPTY.
Proof. apply captured_square. Qed.

Lemma capture_removes_enemy_witness :
  let mv := captureTo 2 1 1 1 in
  isCapture mv = true /\
  (fr mv, fc mv) = (2, 1) /\
  strictlyBetween mv /\
  isEnemy (cellAt captureBoard (fr mv) (fc mv))
          (cellAt captureBoard (cr mv) (cc mv)) = true /\
  cellAt (applyMove captureBoard mv) (cr mv) (cc mv) = EMPTY.
Proof.
  apply (capture_removes_enemy captureBoard 2 1 WHITE (captureTo 2 1 1 1)).
  - apply wfBoardb_spec. vm_compute. reflexivity.
  - reflexivity.
  - vm_compute. left. reflexivity.
Defined.

(** The same for the captures of the whole-board scan. *)
Corollary allCaptures_remove_enemy b pl mv :
  wfBoard b -> In mv (allCaptures b pl) ->
  strictlyBetween mv /\
  isEnemy (cellAt b (fr mv) (fc mv)) (cellAt b (cr mv) (cc mv)) = true /\
  cellAt (applyMove b mv) (cr mv) (cc mv) = EMPTY.
Proof.
  intros Hwf Hm.
  apply (proj1 (In_allCaptures _ _ _)) in Hm as (r & c & Hin & Hm).
  pose proof (captured_square b r c pl mv Hwf Hin Hm). tauto.
Qed.

Lemma Zpair_eqb_false (a b a' b' : Z) :
  (a, b) <> (a', b') -> (a =? a') && (b =? b') = false.
Proof.
  intros H. apply andb_false_iff.
  destruct (Z.eqb_spec a a'), (Z.eqb_spec b b'); subst; auto.
  by destruct H.
Qed.

(** The cell-by-cell effect holds as soon as the destination is written
    on the board and not overwritten by the two later writes. *)
Lemma applyMove_effect_distinct (b : Board) (mv : Move) :
  wfBoard b ->
  inBounds (fr mv) (fc mv) = true ->
  inBounds (tr mv) (tc mv) = true ->
  (tr mv, tc mv) <> (fr mv, fc mv) ->
  (isCapture mv = true ->
     inBounds (cr mv) (cc mv) = true /\ (tr mv, tc mv) <> (cr mv, cc mv)) ->
  applyMove_effect b mv.
Proof.
  intros Hwf Hf Ht Hne Hcap. unfold applyMove_effect.
  assert (Hc : isCapture mv = true -> inBounds (cr mv) (cc mv) = true)
    by (intros H; by apply Hcap).
  repeat split.
  - rewrite cellAt_applyMove by done.
    destruct (isCapture mv) eqn:Ec; simpl.
    + destruct (Hcap eq_refl) as [_ Hne'].
      rewrite (Zpair_eqb_false _ _ _ _ (not_eq_sym Hne')).
      rewrite (Zpair_eqb_false _ _ _ _ (not_eq_sym Hne)).
      by rewrite !Z.eqb_refl.
    + rewrite (Zpair_eqb_false _ _ _ _ (not_eq_sym Hne)).
      by rewrite !Z.eqb_refl.
  - rewrite cellAt_applyMove by done.
    rewrite !Z.eqb_refl. simpl. by destruct (_ && _).
  - intros Ec. rewrite cellAt_applyMove by done.
    by rewrite Ec, !Z.eqb_refl.
  - intros r c H1 H2 H3. rewrite cellAt_applyMove by done.
    rewrite (Zpair_eqb_false _ _ _ _ (not_eq_sym H1)).
    rewrite (Zpair_eqb_false _ _ _ _ (not_eq_sym H2)).
    destruct (isCapture mv); simpl; [|done].
    by rewrite (Zpair_eqb_false _ _ _ _ (not_eq_sym (H3 eq_refl))).
Qed.


(** Every move the generators produce meets these side conditions. *)
Lemma generated_applyMove_effect b r c pl mv :
  wfBoard b -> inBounds r c = true ->
  In mv (captureMovesFrom b r c pl) \/ In mv (simpleMovesFrom b r c pl) ->
  applyMove_effect b mv.
Proof.
  intros Hwf Hin [Hm|Hm].
  - destruct (captureMovesFrom_shape _ _ _ _ _ Hin Hm)
      as (dr & dc & Hd & -> & Ht & Hc).
    unfold captureTo in *. apply applyMove_effect_distinct; simpl in *; try done.
    + diagonal_cases Hd; intros [= ? ?]; lia.
    + intros _. split; [done|]. diagonal_cases Hd; intros [= ? ?]; lia.
  - destruct (simpleMovesFrom_shape _ _ _ _ _ Hin Hm)
      as (dr & dc & Hd & -> & Ht).
    unfold stepTo in *. apply applyMove_effect_distinct; simpl in *; try done.
    diagonal_cases Hd; intros [= ? ?]; lia.
Qed.

(** ** Scanning the board *)

Lemma fold_left_pairs {S X Y : Type} (upd : X -> Y -> S -> S)
    (rows : list X) (cols : list Y) (init : S) :
  fold_left (fun s r => fold_left (fun s c => upd r c s) cols s) rows init =
  fold_left (fun s '(r, c) => upd r c s)
    (flat_map (fun r => map (pair r) cols) rows) init.
Proof.
  revert init. induction rows as [|r rows IH]; intros init; simpl; [done|].
  rewrite fold_left_app, <- IH. f_equal.
  generalize init. clear. induction cols as [|c cols IH]; intros init; simpl; [done|].
  apply IH.
Qed.

(** Two nested [for] loops over the board are one pass over
    [allPositions]. *)
Lemma scan_fold {S : Type} (upd : Z -> Z -> S -> S) (init : S) :
  forZ 0 8 (fun r s => forZ 0 8 (fun c s => upd r c s) s) init =
  fold_left (fun s '(r, c) => upd r c s) allPositions init.
Proof. unfold forZ, allPositions. apply fold_left_pairs. Qed.

Lemma fold_left_pointwise {S X : Type} (f g : S -> X -> S) (l : list X) (init : S) :
  (forall s x, f s x = g s x) -> fold_left f l init = fold_left g l init.
Proof.
  intros H. revert init. induction l as [|x l IH]; intros init; simpl; [done|].
  by rewrite H, IH.
Qed.

Lemma fold_left_count {X : Type} (P : X -> bool) (l : list X) (init : Z) :
  fold_left (fun cnt x => if P x then cnt + 1 else cnt) l init =
  init + Z.of_nat (length (List.filter P l)).
Proof.
  revert init. induction l as [|x l IH]; intros init; simpl; [lia|].
  rewrite IH. destruct (P x); simpl; lia.
Qed.

(** [countPieces] counts the squares of [ownedPositions]. *)
Lemma countPieces_owned b pl :
  countPieces b pl = Z.of_nat (length (ownedPositions b pl)).
Proof.
  unfold countPieces, ownedPositions.
  rewrite (scan_fold (fun r c cnt =>
             if belongsTo (cellAt b r c) pl then cnt + 1 else cnt)).
  rewrite <- (Z.add_0_l (Z.of_nat _)).
  rewrite <- (fold_left_count (fun '(r, c) => belongsTo (cellAt b r c) pl)).
  apply fold_left_pointwise. by intros cnt [r c].
Qed.

Lemma countPieces_nonneg b pl : 0 <= countPieces b pl.
Proof. rewrite countPieces_owned. lia. Qed.

Lemma countPieces_zero b pl :
  countPieces b pl = 0 <->
  forall r c, inBounds r c = true -> belongsTo (cellAt b r c) pl = false.
Proof.
  rewrite countPieces_owned. unfold ownedPositions. split.
  - intros H r c Hin.
    destruct (belongsTo (cellAt b r c) pl) eqn:E; [|done].
    assert (Hm : In (r, c) (List.filter
                (fun '(r, c) => belongsTo (cellAt b r c) pl) allPositions)).
    { apply filter_In. split; [by apply In_allPositions|done]. }
    destruct (List.filter _ allPositions); [done|]. simpl in H. lia.
  - intros H.
    assert (Hnil : List.filter (fun '(r, c) => belongsTo (cellAt b r c) pl)
                     allPositions = []).
    { destruct (List.filter _ allPositions) as [|[r c] l] eqn:E; [done|].
      assert (Hm : In (r, c) ((r, c) :: l)) by (by left).
      rewrite <- E in Hm. apply filter_In in Hm as [Hin Hb].
      apply In_allPositions in Hin. by rewrite (H r c Hin) in Hb. }
    by rewrite Hnil.
Qed.

Lemma countPieces_pos b pl r c :
  inBounds r c = true -> belongsTo (cellAt b r c) pl = true ->
  countPieces b pl <> 0.
Proof.
  intros Hin Hb H0. rewrite countPieces_zero in H0.
  by rewrite (H0 r c Hin) in Hb.
Qed.

Lemma In_allLegalMoves b pl mv :
  In mv (allLegalMoves b pl) ->
  exists r c, inBounds r c = true /\
    (In mv (captureMovesFrom b r c pl) \/ In mv (simpleMovesFrom b r c pl)).
Proof.
  rewrite allLegalMoves_unfold.
  destruct (allCaptures b pl) as [|m0 caps] eqn:E.
  - intros Hm. apply (proj1 (in_flat_map _ _ _)) in Hm as ([r c] & Hp & Hm).
    exists r, c. split; [by apply In_allPositions|by right].
  - rewrite <- E. intros Hm.
    apply (proj1 (In_allCaptures _ _ _)) in Hm as (r & c & Hin & Hm).
    exists r, c. auto.
Qed.

(** ** The turn loop: case analysis *)

(* The scans reduce to 64 unrolled iterations: keep them folded. *)
Opaque allLegalMoves allCaptures countPieces.
Arguments allLegalMoves : simpl never.
Arguments allCaptures : simpl never.
Arguments captureMovesFrom : simpl never.
Arguments simpleMovesFrom : simpl never.
Arguments countPieces : simpl never.
Arguments applyMove : simpl never.
Arguments maybePromote : simpl never.
Arguments parseSquare : simpl never.
Arguments cellAt : simpl never.
Arguments setCell : simpl never.
Arguments isDarkSquare : simpl never.
Arguments inBounds : simpl never.
Arguments step : simpl never.
Arguments turnStep : simpl never.
Arguments chainStep : simpl never.

Lemma opponent_involutive pl : opponent (opponent pl) = pl.
Proof. by destruct pl. Qed.

Lemma opponent_neq pl : opponent pl <> pl.
Proof. by destruct pl. Qed.

(** A rejection is the only event of its iteration and changes nothing
    but the input consumed. *)
Lemma turnStep_reject b pl inp why :
  In (EvReject why) (fst (turnStep b pl inp)) ->
  exists t1 t2 rest, inp = t1 :: t2 :: rest /\
    turnStep b pl inp = ([EvReject why], mkState b pl TurnStart rest).
Proof.
  unfold turnStep, endTurn. intros H.
  repeat case_match; simpl in H; simplify_eq;
    repeat match goal with
    | H : _ \/ _ |- _ => destruct H
    | H : False |- _ => destruct H
    end; simplify_eq; eauto.
Qed.

Lemma chainStep_reject b pl curR curC inp why :
  In (EvReject why) (fst (chainStep b pl curR curC inp)) ->
  captureMovesFrom b curR curC pl <> [] /\
  chainStep b pl curR curC inp =
    ([EvReject why], mkState b pl (Chain curR curC) (afterToken inp)).
Proof.
  unfold chainStep, endTurn, afterToken. intros H.
  repeat case_match; simpl in H; simplify_eq;
    repeat match goal with
    | H : _ \/ _ |- _ => destruct H
    | H : False |- _ => destruct H
    end; simplify_eq; eauto.
Qed.

Lemma find_none_intro {A : Type} (f : A -> bool) (l : list A) :
  (forall x, In x l -> f x = false) -> find f l = None.
Proof.
  induction l as [|x l IH]; simpl; [done|]. intros H.
  rewrite (H x) by auto. apply IH. auto.
Qed.

Lemma sameMove_spec m fr' fc' tr' tc' :
  sameMove m fr' fc' tr' tc' = true <->
  (fr m, fc m, tr m, tc m) = (fr', fc', tr', tc').
Proof.
  unfold sameMove. rewrite !andb_true_iff, !Z.eqb_eq.
  split; [intros [[[-> ->] ->] ->]; done | intros [= -> -> -> ->]; done].
Qed.

Lemma sameMove_false m fr' fc' tr' tc' :
  (fr m, fc m, tr m, tc m) <> (fr', fc', tr', tc') ->
  sameMove m fr' fc' tr' tc' = false.
Proof.
  intros H. destruct (sameMove m fr' fc' tr' tc') eqn:E; [|done].
  by apply sameMove_spec in E.
Qed.

Lemma landing_false m nr nc :
  (tr m, tc m) <> (nr, nc) -> (tr m =? nr) && (tc m =? nc) = false.
Proof. apply Zpair_eqb_false. Qed.

Lemma landing_true m nr nc :
  (tr m =? nr) && (tc m =? nc) = true -> (tr m, tc m) = (nr, nc).
Proof. rewrite andb_true_iff, !Z.eqb_eq. by intros [-> ->]. Qed.

(** ** Rejected submissions *)

(** C9: a rejection is the only thing its iteration does: the board, the
    active player and the control point (with the chain position) are
    unchanged, the program has not left its loop and only input has been
    consumed; and each kind of bad submission -- unparsable squares, a
    light destination, an origin without a piece of the mover, an occupied
    destination, a move outside the legal set, a landing outside the
    forced set -- is rejected, by the first check that fails. *)
Theorem rejection_keeps_state (s : State) :
  (forall why, In (EvReject why) (fst (step s)) ->
     fst (step s) = [EvReject why] /\
     board (snd (step s)) = board s /\
     turn (snd (step s)) = turn s /\
     phase (snd (step s)) = phase s /\
     (forall o, phase (snd (step s)) <> Finished o) /\
     (exists k, input (snd (step s)) = drop k (input s))) /\
  (forall t1 t2 rest,
     phase s = TurnStart -> input s = t1 :: t2 :: rest ->
     countPieces (board s) WHITE <> 0 ->
     countPieces (board s) BLACK <> 0 ->
     allLegalMoves (board s) (turn s) <> [] ->
     (parseSquare t1 = None \/ parseSquare t2 = None ->
        fst (step s) = [EvReject InvalidFormat]) /\
     (forall fr' fc' tr' tc',
        parseSquare t1 = Some (fr', fc') ->
        parseSquare t2 = Some (tr', tc') ->
        (isDarkSquare tr' tc' = false ->
           fst (step s) = [EvReject NotDarkSquare]) /\
        (isDarkSquare tr' tc' = true ->
         belongsTo (cellAt (board s) fr' fc') (turn s) = false ->
           fst (step s) = [EvReject NotOwnPiece]) /\
        (isDarkSquare tr' tc' = true ->
         belongsTo (cellAt (board s) fr' fc') (turn s) = true ->
         cellAt (board s) tr' tc' <> EMPTY ->
           fst (step s) = [EvReject DestinationOccupied]) /\
        (isDarkSquare tr' tc' = true ->
         belongsTo (cellAt (board s) fr' fc') (turn s) = true ->
         cellAt (board s) tr' tc' = EMPTY ->
         (forall m, In m (allLegalMoves (board s) (turn s)) ->
            (fr m, fc m, tr m, tc m) <> (fr', fc', tr', tc')) ->
           fst (step s) = [EvReject IllegalMove]))) /\
  (forall curR curC,
     phase s = Chain curR curC ->
     captureMovesFrom (board s) curR curC (turn s) <> [] ->
     (parseSquare (nextToken (input s)) = None ->
        fst (step s) = [EvReject BadSquare]) /\
     (forall nr nc,
        parseSquare (nextToken (input s)) = Some (nr, nc) ->
        (forall m, In m (captureMovesFrom (board s) curR curC (turn s)) ->
           (tr m, tc m) <> (nr, nc)) ->
        fst (step s) = [EvReject MustContinue])).
Proof.
  destruct s as [b pl ph inp]. simpl. split; [|split].
  - intros why H. unfold step in *. simpl in *. destruct ph as [|curR curC|o].
    + apply turnStep_reject in H as (t1 & t2 & rest & -> & ->). simpl.
      repeat split; try done. by exists 2%nat.
    + apply chainStep_reject in H as (_ & ->). simpl.
      repeat split; try done. exists 1%nat. by destruct inp.
    + by simpl in H.
  - intros t1 t2 rest -> -> HW HB HL.
    apply Z.eqb_neq in HW, HB.
    unfold step, turnStep. simpl. rewrite HW, HB.
    destruct (allLegalMoves b pl) as [|m0 legal] eqn:EL; [done|].
    split.
    + intros [H1 | H2]; [rewrite H1 | rewrite H2; destruct (parseSquare t1) as [[]|]];
        reflexivity.
    + intros fr' fc' tr' tc' H1 H2. rewrite H1, H2. repeat split.
      * intros Hd. by rewrite Hd.
      * intros Hd Ho. by rewrite Hd, Ho.
      * intros Hd Ho H. apply Piece_eqb_neq in H. by rewrite Hd, Ho, H.
      * intros Hd Ho He H. rewrite Hd, Ho, He.
        rewrite find_none_intro; [done|].
        intros m Hm. apply sameMove_false. by apply H.
  - intros curR curC -> HN.
    unfold step, chainStep. simpl.
    destruct (captureMovesFrom b curR curC pl) as [|m0 caps] eqn:EC; [done|].
    fold (nextToken inp). split.
    + intros Hp. by rewrite Hp.
    + intros nr nc Hp H. rewrite Hp.
      rewrite find_none_intro; [done|].
      intros m Hm. apply landing_false. by apply H.
Qed.

(** A light destination at the first move of the game: rejected, nothing
    changes and the loop goes on. *)
Lemma rejection_keeps_state_witness :
  let s := initState ["b3"; "b4"; "b3"; "a4"]%string in
  fst (step s) = [EvReject NotDarkSquare] /\
  board (snd (step s)) = board s /\
  turn (snd (step s)) = turn s /\
  phase (snd (step s)) = phase s /\
  (forall o, phase (snd (step s)) <> Finished o) /\
  (exists k, input (snd (step s)) = drop k (input s)).
Proof.
  intros s.
  apply (proj1 (rejection_keeps_state s) NotDarkSquare).
  vm_compute. left. reflexivity.
Defined.

(** ** Forced continuation of a capture *)

Ltac In_singleton H :=
  simpl in H; destruct H as [H|[]]; simplify_eq.

(** C2: an accepted capture at the start of a turn enters the chain at its
    landing square without a switch of turns; while a capture exists from
    the current square the engine accepts only the landing of such a
    capture (applying it and moving the chain to the new landing square)
    and rejects anything else with the state unchanged, the turn staying
    with the same player; the turn switches only when no capture is left
    from the current square. *)
Theorem chain_continuation (s : State) :
  (forall mv,
     phase s = TurnStart ->
     In (EvApply mv) (fst (step s)) -> isCapture mv = true ->
     fst (step s) = [EvApply mv] /\
     board (snd (step s)) = applyMove (board s) mv /\
     turn (snd (step s)) = turn s /\
     phase (snd (step s)) = Chain (tr mv) (tc mv)) /\
  (forall curR curC,
     phase s = Chain curR curC ->
     captureMovesFrom (board s) curR curC (turn s) <> [] ->
     turn (snd (step s)) = turn s /\
     ((exists m,
         In m (captureMovesFrom (board s) curR curC (turn s)) /\
         (fr m, fc m) = (curR, curC) /\ isCapture m = true /\
         parseSquare (nextToken (input s)) = Some (tr m, tc m) /\
         fst (step s) = [EvApply m] /\
         board (snd (step s)) = applyMove (board s) m /\
         phase (snd (step s)) = Chain (tr m) (tc m))
      \/
      ((forall m, In m (captureMovesFrom (board s) curR curC (turn s)) ->
          parseSquare (nextToken (input s)) <> Some (tr m, tc m)) /\
       (exists why, fst (step s) = [EvReject why]) /\
       board (snd (step s)) = board s /\
       phase (snd (step s)) = Chain curR curC))) /\
  (forall curR curC,
     phase s = Chain curR curC ->
     captureMovesFrom (board s) curR curC (turn s) = [] ->
     turn (snd (step s)) = opponent (turn s) /\
     phase (snd (step s)) = TurnStart).
Proof.
  destruct s as [b pl ph inp]. cbn [board turn phase input]. split; [|split].
  - intros mv -> Hin Hcap. unfold step in *. cbn [board turn phase input] in *.
    unfold turnStep, endTurn in *.
    repeat case_match; simplify_eq; cbn [fst snd board turn phase] in *;
      try (In_singleton Hin; done).
    simpl in Hin. destruct Hin as [Hin|[Hin|[Hin|[]]]]; simplify_eq. congruence.
  - intros curR curC -> Hne. unfold step. cbn [board turn phase input].
    unfold chainStep. fold (nextToken inp) (afterToken inp).
    destruct (captureMovesFrom b curR curC pl) as [|m0 caps] eqn:EC; [done|].
    destruct (parseSquare (nextToken inp)) as [[nr nc]|] eqn:EP.
    + destruct (find _ (m0 :: caps)) as [m|] eqn:EF.
      * apply find_some in EF as [Hm Hland]. apply landing_true in Hland.
        split; [done|]. left. exists m.
        assert (Hm' := Hm). rewrite <- EC in Hm'.
        apply (proj1 (In_captureMovesFrom _ _ _ _ _)) in Hm'
          as (_ & dr & dc & _ & Hmv & _).
        injection Hland as Hr Hc. subst nr nc.
        repeat split; try done; by rewrite Hmv.
      * split; [done|]. right. repeat split; try done; [|by eexists].
        intros m Hm [= Hr Hc]. subst nr nc.
        pose proof (find_none _ _ EF m Hm) as Hf. simpl in Hf.
        by rewrite !Z.eqb_refl in Hf.
    + split; [done|]. right. repeat split; try done. by eexists.
  - intros curR curC -> HE. unfold step. cbn [board turn phase input].
    unfold chainStep. by rewrite HE.
Qed.

(** After the first jump ("b3 d5") the landing "a1" is refused and the
    landing "f7" is taken; WHITE stays on turn throughout. *)
Lemma chain_continuation_witness :
  let s0 := mkState doubleJumpBoard WHITE TurnStart
              ["b3"; "d5"; "a1"; "f7"]%string in
  let s1 := snd (step s0) in
  let s2 := snd (step s1) in
  let s3 := snd (step s2) in
  (phase s1 = Chain 4 3 /\ turn s1 = WHITE) /\
  (fst (step s1) = [EvReject MustContinue] /\ board s2 = board s1 /\
   phase s2 = Chain 4 3 /\ turn s2 = WHITE) /\
  (fst (step s2) = [EvApply (captureTo 4 3 1 1)] /\
   phase s3 = Chain 6 5 /\ turn s3 = WHITE) /\
  (turn (snd (step s3)) = BLACK /\ phase (snd (step s3)) = TurnStart).
Proof.
  intros s0 s1 s2 s3.
  split; [|split; [|split]].
  - destruct (proj1 (chain_continuation s0) (captureTo 2 1 1 1) eq_refl)
      as (_ & _ & Ht & Hp);
      [vm_compute; left; reflexivity | reflexivity |].
    split; [exact Hp|].
    transitivity (turn s0); [exact Ht | reflexivity].
  - destruct (proj1 (proj2 (chain_continuation s1)) 4 3 eq_refl) as (Ht & _);
      [vm_compute; discriminate|].
    split; [|split; [|split]];
      [vm_compute; reflexivity .. |].
    transitivity (turn s1); [exact Ht | vm_compute; reflexivity].
  - destruct (proj1 (proj2 (chain_continuation s2)) 4 3 eq_refl) as (Ht & _);
      [vm_compute; discriminate|].
    split; [|split]; [vm_compute; reflexivity .. |].
    transitivity (turn s2); [exact Ht | vm_compute; reflexivity].
  - apply (proj2 (proj2 (chain_continuation s3)) 6 5 eq_refl).
    vm_compute. reflexivity.
Defined.

(** ** Promotion *)

(** [maybePromote] as a function of the cell it reads. *)
Lemma maybePromote_unfold b r c :
  maybePromote b r c =
    match cellAt b r c with
    | W_MAN => if r =? 7 then setCell b r c W_KING else b
    | B_MAN => if r =? 0 then setCell b r c B_KING else b
    | _ => b
    end.
Proof.
  unfold maybePromote.
  destruct (cellAt b r c); simpl; try done; by destruct (r =? 7).
Qed.

(** Promotion never changes whose piece a cell holds. *)
Lemma belongsTo_maybePromote b r c r' c' pl :
  wfBoard b -> inBounds r c = true ->
  belongsTo (cellAt (maybePromote b r c) r' c') pl =
  belongsTo (cellAt b r' c') pl.
Proof.
  intros Hwf Hin. rewrite maybePromote_unfold.
  destruct (cellAt b r c) eqn:E; try done.
  - destruct (r =? 7); [|done]. rewrite cellAt_setCell by done.
    destruct (_ && _) eqn:E'; [|done].
    apply andb_true_iff in E' as [->%Z.eqb_eq ->%Z.eqb_eq]. by rewrite E.
  - destruct (r =? 0); [|done]. rewrite cellAt_setCell by done.
    destruct (_ && _) eqn:E'; [|done].
    apply andb_true_iff in E' as [->%Z.eqb_eq ->%Z.eqb_eq]. by rewrite E.
Qed.


Lemma step_case s : StepCase s (fst (step s)) (snd (step s)).
Proof.
  destruct s as [b pl ph inp]. unfold step. cbn [board turn phase input].
  destruct ph as [|curR curC|o].
  - unfold turnStep, endTurn.
    destruct (allLegalMoves b pl) as [|m0 legal] eqn:EL;
      repeat case_match; simplify_eq; cbn [fst snd];
      try (by apply (CaseGameOver (mkState b pl TurnStart inp)));
      try (by apply (CaseEndOfInput (mkState b pl TurnStart _)));
      try (by apply (CaseReject (mkState b pl TurnStart _))).
    all: match goal with H : find _ _ = Some _ |- _ =>
           apply find_some in H as [Hin _] end.
    + apply (CaseFirstCapture (mkState b pl TurnStart _)); try done.
      cbn [board turn]. by rewrite EL.
    + apply (CaseSimple (mkState b pl TurnStart _)); try done.
      cbn [board turn]. by rewrite EL.
  - unfold chainStep, endTurn.
    destruct (captureMovesFrom b curR curC pl) as [|m0 caps] eqn:EC.
    + by apply (CaseChainEnd (mkState b pl (Chain curR curC) inp)).
    + repeat case_match; simplify_eq; cbn [fst snd];
        try (by apply (CaseReject (mkState b pl (Chain curR curC) _))).
      match goal with H : find _ _ = Some _ |- _ =>
        apply find_some in H as [Hin _] end.
      apply (CaseNextCapture (mkState b pl (Chain curR curC) _) curR curC);
        try done.
      cbn [board turn]. by rewrite EC.
  - by apply (CaseFinished _ o).
Qed.

Ltac step_cases s :=
  generalize (step_case s);
  generalize (fst (step s)) (snd (step s));
  let evs := fresh "evs" in let s' := fresh "s'" in let H := fresh "Hstep" in
  intros evs s' H; destruct H; cbn [board turn phase input] in *.

Ltac In_events H :=
  simpl in H;
  repeat match type of H with
         | _ \/ _ => destruct H as [H|H]
         | False => destruct H
         end; simplify_eq.

Lemma run_S n s :
  run (S n) s =
    (fst (step s) ++ fst (run n (snd (step s))), snd (run n (snd (step s)))).
Proof.
  simpl. destruct (step s) as [evs s']. simpl.
  by destruct (run n s') as [evs' s''].
Qed.


(** A man on its promotion row has no capture: men capture forwards only,
    so a chain that reaches the row ends there. *)
Remark man_on_promotion_row_stops b c pl :
  cellAt b (if Player_eqb pl WHITE then 7 else 0) c =
    (if Player_eqb pl WHITE then W_MAN else B_MAN) ->
  captureMovesFrom b (if Player_eqb pl WHITE then 7 else 0) c pl = [].
Proof.
  intros Hcell.
  destruct (captureMovesFrom b _ c pl) as [|m l] eqn:E; [done|].
  assert (Hm : In m (m :: l)) by (by left). rewrite <- E in Hm.
  apply (proj1 (In_captureMovesFrom _ _ _ _ _)) in Hm
    as (_ & dr & dc & Hd & _ & H1 & _).
  rewrite Hcell in Hd. apply inBounds_spec in H1.
  destruct pl; cbv [Player_eqb dirsOf isKing Piece_eqb orb forwardDir] in Hd, H1;
    destruct Hd as [Hd|[Hd|[]]]; injection Hd as <- <-; lia.
Qed.


(** ** Invariants of play *)

Lemma darkOnlyb_spec b : darkOnlyb b = true <-> darkOnly b.
Proof.
  unfold darkOnlyb, darkOnly. rewrite forallb_forall. split.
  - intros H r c Hin Hne. apply In_allPositions in Hin.
    specialize (H (r, c) Hin). simpl in H.
    apply orb_true_iff in H as [H|H]; [|done].
    by apply Piece_eqb_eq in H.
  - intros H [r c] Hin. apply In_allPositions in Hin.
    destruct (Piece_eqb (cellAt b r c) EMPTY) eqn:E; [done|].
    apply Piece_eqb_neq in E. simpl. by apply H.
Qed.

Lemma darkOnly_startBoard : darkOnly startBoard.
Proof. apply darkOnlyb_spec. vm_compute. reflexivity. Qed.

(** A diagonal step, single or double, stays on the colour. *)
Lemma isDarkSquare_diagonal r c dr dc k :
  inBounds r c = true -> inBounds (r + k * dr) (c + k * dc) = true ->
  In (dr, dc) diagonals ->
  isDarkSquare (r + k * dr) (c + k * dc) = isDarkSquare r c.
Proof.
  intros Hin Hin' Hd. apply inBounds_spec in Hin, Hin'.
  unfold isDarkSquare.
  rewrite !Z.rem_mod_nonneg by lia.
  assert (E : (r + k * dr + (c + k * dc)) mod 2 = (r + c) mod 2).
  { diagonal_cases Hd.
    - replace (r + k * 1 + (c + k * 1)) with (r + c + k * 2) by lia.
      apply Z_mod_plus_full.
    - replace (r + k * 1 + (c + k * -1)) with (r + c) by lia. done.
    - replace (r + k * -1 + (c + k * 1)) with (r + c) by lia. done.
    - replace (r + k * -1 + (c + k * -1)) with (r + c + (- k) * 2) by lia.
      apply Z_mod_plus_full. }
  by rewrite E.
Qed.

(** What the engine relies on after applying a generated move: the moved
    piece is on the destination, and pieces stay on dark squares. *)
Lemma generated_move_lands b r c pl mv :
  wfBoard b -> inBounds r c = true ->
  In mv (captureMovesFrom b r c pl) \/ In mv (simpleMovesFrom b r c pl) ->
  inBounds (tr mv) (tc mv) = true /\
  belongsTo (cellAt (applyMove b mv) (tr mv) (tc mv)) pl = true /\
  (darkOnly b -> darkOnly (applyMove b mv)).
Proof.
  intros Hwf Hin Hgen.
  pose proof (generated_applyMove_effect b r c pl mv Hwf Hin Hgen)
    as (Hdest & Horig & Hcap & Hother).
  assert (Hfacts : inBounds (tr mv) (tc mv) = true /\
            (fr mv, fc mv) = (r, c) /\
            belongsTo (cellAt b r c) pl = true /\
            isDarkSquare (tr mv) (tc mv) = isDarkSquare r c).
  { destruct Hgen as [Hm|Hm].
    - destruct (captureMovesFrom_shape _ _ _ _ _ Hin Hm)
        as (dr & dc & Hd & -> & Ht & _).
      apply (proj1 (In_captureMovesFrom _ _ _ _ _)) in Hm as (Hb & _).
      unfold captureTo in *. simpl in *. repeat split; try done.
      by apply isDarkSquare_diagonal.
    - destruct (simpleMovesFrom_shape _ _ _ _ _ Hin Hm)
        as (dr & dc & Hd & -> & Ht).
      apply (proj1 (In_simpleMovesFrom _ _ _ _ _)) in Hm as (Hb & _).
      unfold stepTo in *. simpl in *. repeat split; try done.
      rewrite <- (Z.mul_1_l dr), <- (Z.mul_1_l dc) in Ht |- *.
      by apply isDarkSquare_diagonal. }
  destruct Hfacts as (Ht & Hfrom & Hb & Hdark).
  injection Hfrom as Hfr Hfc.
  split; [done|]. split.
  - by rewrite Hdest, Hfr, Hfc.
  - intros Hd r' c' Hin' Hne.
    destruct (decide ((r', c') = (tr mv, tc mv))) as [[= -> ->]|N1].
    { rewrite Hdark. apply Hd; [done|]. by apply (belongsTo_not_EMPTY _ pl). }
    destruct (decide ((r', c') = (fr mv, fc mv))) as [[= -> ->]|N2]; [done|].
    destruct (isCapture mv) eqn:Ec.
    + destruct (decide ((r', c') = (cr mv, cc mv))) as [[= -> ->]|N3].
      { by rewrite Hcap in Hne. }
      rewrite Hother in Hne by done. by apply Hd.
    + rewrite Hother in Hne by done. by apply Hd.
Qed.

Lemma not_EMPTY_belongsTo p :
  p <> EMPTY <-> belongsTo p WHITE = true \/ belongsTo p BLACK = true.
Proof. destruct p; cbv; intuition congruence. Qed.

Lemma darkOnly_maybePromote b r c :
  wfBoard b -> inBounds r c = true -> darkOnly b ->
  darkOnly (maybePromote b r c).
Proof.
  intros Hwf Hin Hd r' c' Hin' Hne. apply Hd; [done|].
  apply not_EMPTY_belongsTo. apply not_EMPTY_belongsTo in Hne.
  by rewrite !belongsTo_maybePromote in Hne.
Qed.

Lemma Inv_init inp : Inv (initState inp).
Proof.
  split; [apply wfBoard_startBoard|]. split; [apply darkOnly_startBoard|].
  simpl. exists 5, 0. by vm_compute.
Qed.

Lemma Inv_step s : Inv s -> Inv (snd (step s)).
Proof.
  step_cases s; intros (Hwf & Hd & Hph); unfold Inv;
    cbn [board turn phase input].
  - done.
  - done.
  - done.
  - done.
  - destruct (In_allLegalMoves _ _ _ H0) as (r & c & Hin & Hgen).
    destruct (generated_move_lands _ _ _ _ _ Hwf Hin Hgen) as (Ht & Hb & Hdk).
    auto using wfBoard_applyMove.
  - destruct (In_allLegalMoves _ _ _ H0) as (r & c & Hin & Hgen).
    destruct (generated_move_lands _ _ _ _ _ Hwf Hin Hgen) as (Ht & Hb & Hdk).
    split; [auto using wfBoard_applyMove, wfBoard_maybePromote|].
    split; [auto using wfBoard_applyMove, darkOnly_maybePromote|].
    exists (tr mv), (tc mv). split; [done|].
    rewrite opponent_involutive.
    by rewrite belongsTo_maybePromote by auto using wfBoard_applyMove.
  - rewrite H in Hph. destruct Hph as [Hin Hown].
    destruct (generated_move_lands _ _ _ _ _ Hwf Hin (or_introl H0))
      as (Ht & Hb & Hdk).
    auto using wfBoard_applyMove.
  - rewrite H in Hph. destruct Hph as [Hin Hown].
    split; [auto using wfBoard_maybePromote|].
    split; [auto using darkOnly_maybePromote|].
    exists curR, curC. split; [done|].
    rewrite opponent_involutive. by rewrite belongsTo_maybePromote.
Qed.

Lemma reachable_Inv s : reachable s -> Inv s.
Proof. induction 1; [apply Inv_init|by apply Inv_step]. Qed.

Lemma reachable_run n s : reachable s -> reachable (snd (run n s)).
Proof.
  revert s. induction n as [|n IH]; intros s Hs; [done|].
  rewrite run_S. cbn [snd]. apply IH. by constructor.
Qed.

Lemma reachable_main fuel inp : reachable (snd (main fuel inp)).
Proof. apply reachable_run, reach_init. Qed.

(** C6: for every move the engine builds -- a move of [captureMovesFrom] or
    [simpleMovesFrom] from a square of the board, hence every move of
    [allLegalMoves] and every move [main] applies in a game -- [applyMove]
    sets the destination cell to the value the origin cell held before the
    call, sets the origin cell to EMPTY, sets the captured position to
    EMPTY when [isCapture] is true, and leaves every other cell of the
    board unchanged. *)
Theorem applyMove_frame :
  (forall b r c pl mv,
     wfBoard b -> inBounds r c = true ->
     In mv (captureMovesFrom b r c pl) \/ In mv (simpleMovesFrom b r c pl) ->
     applyMove_effect b mv) /\
  (forall b pl mv,
     wfBoard b -> In mv (allLegalMoves b pl) -> applyMove_effect b mv) /\
  (forall s mv,
     reachable s -> In (EvApply mv) (fst (step s)) ->
     applyMove_effect (board s) mv).
Proof.
  split; [|split].
  - intros b r c pl mv. apply generated_applyMove_effect.
  - intros b pl mv Hwf Hm.
    destruct (In_allLegalMoves _ _ _ Hm) as (r & c & Hin & Hgen).
    by apply (generated_applyMove_effect b r c pl).
  - intros s mv Hs. pose proof (reachable_Inv s Hs) as HI. revert HI.
    step_cases s; intros (Hwf & Hd & Hph) Hin; In_events Hin.
    + destruct (In_allLegalMoves _ _ _ H0) as (r & c & Hrc & Hgen).
      by apply (generated_applyMove_effect _ r c (turn s)).
    + destruct (In_allLegalMoves _ _ _ H0) as (r & c & Hrc & Hgen).
      by apply (generated_applyMove_effect _ r c (turn s)).
    + rewrite H in Hph. destruct Hph as [Hcur _].
      apply (generated_applyMove_effect _ curR curC (turn s)); auto.
Qed.

(** A capture from the generator, a simple move of the legal set at the
    start of the game, and the capture [main] applies in the fifth
    iteration of the first game. *)
Lemma applyMove_frame_witness :
  applyMove_effect captureBoard (captureTo 2 1 1 1) /\
  applyMove_effect startBoard (stepTo 2 1 1 (-1)) /\
  applyMove_effect (board (snd (main 4 gameNoPieces))) (captureTo 3 6 1 (-1)).
Proof.
  destruct applyMove_frame as (Hgen & Hlegal & Hplay).
  split; [|split].
  - apply (Hgen captureBoard 2 1 WHITE).
    + apply wfBoardb_spec. vm_compute. reflexivity.
    + reflexivity.
    + left. vm_compute. left. reflexivity.
  - apply (Hlegal startBoard WHITE).
    + apply wfBoard_startBoard.
    + vm_compute. right. left. reflexivity.
  - apply Hplay.
    + apply reachable_main.
    + vm_compute. left. reflexivity.
Defined.

(** C8: [initBoard], whatever the array held before, leaves pieces on dark
    squares only; applying a move produced by the generators keeps it so;
    and therefore every board the program reaches, whatever the input, has
    all its non-EMPTY cells on dark squares. *)
Theorem dark_square_invariant :
  (forall b, wfBoard b -> darkOnly (initBoard b)) /\
  (forall b r c pl mv,
     wfBoard b -> darkOnly b -> inBounds r c = true ->
     In mv (captureMovesFrom b r c pl) \/ In mv (simpleMovesFrom b r c pl) ->
     darkOnly (applyMove b mv)) /\
  (forall b pl mv,
     wfBoard b -> darkOnly b -> In mv (allLegalMoves b pl) ->
     darkOnly (applyMove b mv)) /\
  (forall s, reachable s -> darkOnly (board s)).
Proof.
  split; [|split; [|split]].
  - intros b Hwf. rewrite (initBoard_any b Hwf). apply darkOnly_startBoard.
  - intros b r c pl mv Hwf Hd Hin Hgen.
    by apply (generated_move_lands b r c pl mv Hwf Hin Hgen).
  - intros b pl mv Hwf Hd Hm.
    destruct (In_allLegalMoves _ _ _ Hm) as (r & c & Hin & Hgen).
    by apply (generated_move_lands b r c pl mv Hwf Hin Hgen).
  - intros s Hs. by apply reachable_Inv in Hs as (_ & Hd & _).
Qed.

Lemma dark_square_invariant_witness :
  darkOnly (initBoard captureBoard) /\
  darkOnly (applyMove captureBoard (captureTo 2 1 1 1)) /\
  darkOnly (board (snd (main 39 gameNoPieces))) /\
  darkOnly (board (snd (main 41 gameNoMoves))).
Proof.
  destruct dark_square_invariant as (Hinit & Hgen & _ & Hreach).
  split; [|split; [|split]].
  - apply Hinit. apply wfBoardb_spec. vm_compute. reflexivity.
  - apply (Hgen captureBoard 2 1 WHITE).
    + apply wfBoardb_spec. vm_compute. reflexivity.
    + apply darkOnlyb_spec. vm_compute. reflexivity.
    + reflexivity.
    + left. vm_compute. left. reflexivity.
  - apply Hreach. apply reachable_main.
  - apply Hreach. apply reachable_main.
Defined.

(** ** The end of the game *)

Lemma run_Finished n s o : phase s = Finished o -> run n s = ([], s).
Proof.
  intros H. induction n as [|n IH]; [done|].
  rewrite run_S. unfold step. rewrite H. cbn [fst snd]. by rewrite IH.
Qed.

Lemma reachable_opponent_has_piece s :
  reachable s -> phase s = TurnStart ->
  countPieces (board s) (opponent (turn s)) <> 0.
Proof.
  intros Hs Hph. apply reachable_Inv in Hs as (_ & _ & H).
  rewrite Hph in H. destruct H as (r & c & Hin & Hb).
  by apply (countPieces_pos _ _ r c).
Qed.

(** C7: in every state [main] reaches at the start of a turn, if the
    opponent of the player to move has no piece or the player to move has
    no legal move, the game ends with the other side declared winner; and
    once the program has left its loop no input is read and the board no
    longer changes.  On an arbitrary board the same holds as long as the
    side to be declared winner has a piece, which play guarantees. *)
Theorem game_over_at_turn_start :
  (forall s,
     reachable s -> phase s = TurnStart ->
     countPieces (board s) (opponent (turn s)) = 0 \/
       allLegalMoves (board s) (turn s) = [] ->
     exists w why, declares s w why /\
       (countPieces (board s) (opponent (turn s)) = 0 -> w = turn s) /\
       (allLegalMoves (board s) (turn s) = [] -> w = opponent (turn s))) /\
  (forall s,
     phase s = TurnStart ->
     (countPieces (board s) (opponent (turn s)) = 0 ->
      countPieces (board s) (turn s) <> 0 ->
        declares s (turn s) NoPieces) /\
     (allLegalMoves (board s) (turn s) = [] ->
      countPieces (board s) (opponent (turn s)) <> 0 ->
        exists why, declares s (opponent (turn s)) why) /\
     (countPieces (board s) (opponent (turn s)) = 0 \/
        allLegalMoves (board s) (turn s) = [] ->
        exists w why, declares s w why)) /\
  (forall s o, phase s = Finished o -> forall n, run n s = ([], s)).
Proof.
  assert (General : forall s,
     phase s = TurnStart ->
     (countPieces (board s) (opponent (turn s)) = 0 ->
      countPieces (board s) (turn s) <> 0 ->
        declares s (turn s) NoPieces) /\
     (allLegalMoves (board s) (turn s) = [] ->
      countPieces (board s) (opponent (turn s)) <> 0 ->
        exists why, declares s (opponent (turn s)) why) /\
     (countPieces (board s) (opponent (turn s)) = 0 \/
        allLegalMoves (board s) (turn s) = [] ->
        exists w why, declares s w why)).
  { intros [b pl ph inp] Hph. cbn [board turn phase input] in *. subst ph.
    unfold declares, step, turnStep. cbn [board turn phase input].
    destruct (Z.eqb_spec (countPieces b WHITE) 0) as [HW|HW];
      destruct (Z.eqb_spec (countPieces b BLACK) 0) as [HB|HB];
      destruct pl; cbn [opponent Player_eqb];
      (split; [|split]); intros; try done; try (by eauto);
      try match goal with H : _ \/ _ |- _ => destruct H as [H|H] end;
      try done;
      match goal with H : allLegalMoves _ _ = [] |- _ => rewrite H end;
      by eauto. }
  split; [|split; [exact General|]].
  - intros s Hs Hph Hor.
    pose proof (reachable_opponent_has_piece s Hs Hph) as Hopp.
    destruct Hor as [H0|HL]; [done|].
    destruct (proj1 (proj2 (General s Hph)) HL Hopp) as [why Hdecl].
    exists (opponent (turn s)), why. by repeat split.
  - intros s o Hph n. by apply (run_Finished n s o).
Qed.

(** The two games above, at the moment the loop is entered for the last
    time: in the first WHITE has lost its last piece, in the second WHITE
    has pieces but no move; BLACK is declared winner, and whatever is fed
    to the program afterwards is ignored. *)
Lemma game_over_at_turn_start_witness :
  let s1 := snd (main 39 gameNoPieces) in
  let s2 := snd (main 41 (gameNoMoves ++ ["a1"; "b2"]%string)) in
  (countPieces (board s1) WHITE = 0 /\
   exists why, declares s1 BLACK why) /\
  (countPieces (board s2) WHITE = 1 /\
   exists why, declares s2 BLACK why) /\
  run 5 (snd (step s2)) = ([], snd (step s2)).
Proof.
  intros s1 s2.
  destruct game_over_at_turn_start as (Hplay & _ & Hend).
  assert (R1 : reachable s1) by apply reachable_main.
  assert (R2 : reachable s2) by apply reachable_main.
  split; [|split].
  - split; [vm_compute; reflexivity|].
    destruct (Hplay s1 R1) as (w & why & Hd & _ & Hw);
      [vm_compute; reflexivity | right; vm_compute; reflexivity |].
    rewrite Hw in Hd by (vm_compute; reflexivity).
    exists why. exact Hd.
  - split; [vm_compute; reflexivity|].
    destruct (Hplay s2 R2) as (w & why & Hd & _ & Hw);
      [vm_compute; reflexivity | right; vm_compute; reflexivity |].
    rewrite Hw in Hd by (vm_compute; reflexivity).
    exists why. exact Hd.
  - apply (Hend (snd (step s2)) (Win BLACK NoLegalMoves)).
    vm_compute. reflexivity.
Defined.


(** * Further properties *)

(** ** Reading and printing squares *)

Lemma charCode_toChar x : charCode (toChar x) = x mod 256.
Proof.
  unfold charCode, toChar.
  rewrite N_ascii_embedding.
  - rewrite Z2N.id; [done|]. apply Z.mod_pos_bound. lia.
  - apply N2Z.inj_lt. rewrite Z2N.id by (apply Z.mod_pos_bound; lia).
    change (Z.of_N 256) with 256. apply Z.mod_pos_bound. lia.
Qed.

Lemma charCode_range ch : 0 <= charCode ch < 256.
Proof.
  unfold charCode. pose proof (N_ascii_bounded ch) as H.
  split; [lia|]. change 256 with (Z.of_N 256). lia.
Qed.

Lemma length_string_app (s t : string) :
  String.length (s ++ t) = (String.length s + String.length t)%nat.
Proof. induction s as [|ch s IH]; simpl; [done|]. by rewrite IH. Qed.

Lemma firstAlpha_skip pre t init :
  noAlpha pre = true -> firstAlpha (pre ++ t) init = firstAlpha t init.
Proof.
  induction pre as [|ch pre IH]; simpl; [done|].
  intros [Hch Hpre]%andb_true_iff. apply negb_true_iff in Hch.
  rewrite Hch. by apply IH.
Qed.

Lemma firstDigit_skip pre t init :
  noDigit pre = true -> firstDigit (pre ++ t) init = firstDigit t init.
Proof.
  induction pre as [|ch pre IH]; simpl; [done|].
  intros [Hch Hpre]%andb_true_iff. apply negb_true_iff in Hch.
  rewrite Hch. by apply IH.
Qed.

Lemma firstAlpha_none t init : noAlpha t = true -> firstAlpha t init = init.
Proof.
  induction t as [|ch t IH]; simpl; [done|].
  intros [Hch Ht]%andb_true_iff. apply negb_true_iff in Hch.
  rewrite Hch. by apply IH.
Qed.

Lemma firstDigit_none t init : noDigit t = true -> firstDigit t init = init.
Proof.
  induction t as [|ch t IH]; simpl; [done|].
  intros [Hch Ht]%andb_true_iff. apply negb_true_iff in Hch.
  rewrite Hch. by apply IH.
Qed.

Lemma sqToStr_codes r c :
  inBounds r c = true ->
  exists file rank,
    sqToStr r c = String file (String rank EmptyString) /\
    charCode file = 97 + c /\ charCode rank = 49 + r.
Proof.
  intros Hin. apply inBounds_spec in Hin. unfold sqToStr.
  eexists _, _. split; [done|].
  rewrite !charCode_toChar, !Z.mod_small by lia. done.
Qed.

(** X1: a square printed by [sqToStr] is read back by [parseSquare], also
    behind characters that are neither letters nor digits and before
    anything at all. *)
Theorem parseSquare_sqToStr (r c : Z) (pre suf : string) :
  inBounds r c = true ->
  noAlpha pre = true -> noDigit pre = true ->
  parseSquare (pre ++ sqToStr r c ++ suf) = Some (r, c).
Proof.
  intros Hin Ha Hd.
  destruct (sqToStr_codes r c Hin) as (file & rank & -> & Hf & Hr).
  apply inBounds_spec in Hin.
  unfold parseSquare.
  rewrite firstAlpha_skip, firstDigit_skip by done.
  rewrite length_string_app. cbn [append String.length firstAlpha firstDigit].
  assert (Hfa : isalpha (charCode file) = true).
  { rewrite Hf. unfold isalpha. apply orb_true_iff. right.
    apply andb_true_iff. split; apply Z.leb_le; lia. }
  assert (Hfd : isdigit (charCode file) = false).
  { rewrite Hf. unfold isdigit. apply andb_false_iff. right.
    apply Z.leb_gt. lia. }
  assert (Hrd : isdigit (charCode rank) = true).
  { rewrite Hr. unfold isdigit. apply andb_true_iff. split; apply Z.leb_le; lia. }
  assert (Hlow : tolower (charCode file) = 97 + c).
  { rewrite Hf. unfold tolower.
    replace (97 + c <=? 90) with false by (symmetry; apply Z.leb_gt; lia).
    by rewrite andb_false_r. }
  rewrite Hfa, Hfd, Hrd, Hlow, Hr.
  replace (String.length pre + S (S (String.length suf)) <? 2)%nat with false
    by (symmetry; apply Nat.ltb_ge; lia).
  replace (97 + c <? 97) with false by (symmetry; apply Z.ltb_ge; lia).
  replace (104 <? 97 + c) with false by (symmetry; apply Z.ltb_ge; lia).
  replace (49 + r <? 49) with false by (symmetry; apply Z.ltb_ge; lia).
  replace (56 <? 49 + r) with false by (symmetry; apply Z.ltb_ge; lia).
  cbn [orb].
  replace (49 + r - 49) with r by lia. replace (97 + c - 97) with c by lia.
  by rewrite (proj2 (inBounds_spec r c) Hin).
Qed.

Lemma parseSquare_sqToStr_witness :
  parseSquare ("<" ++ sqToStr 5 1 ++ ">,")%string = Some (5, 1).
Proof.
  apply (parseSquare_sqToStr 5 1 "<" ">,"); reflexivity.
Defined.

Ltac leb_cases :=
  repeat (match goal with
          | |- context [?a <=? ?b] =>
              lazymatch a with context [if _ then _ else _] => fail | _ => idtac end;
              lazymatch b with context [if _ then _ else _] => fail | _ => idtac end;
              destruct (Z.leb_spec a b)
          end; cbn [andb orb negb]);
  try done; try lia.

Lemma isalpha_tolower x : isalpha (tolower x) = isalpha x.
Proof. unfold isalpha, tolower. leb_cases. Qed.

Lemma tolower_tolower x : tolower (tolower x) = tolower x.
Proof. unfold tolower. leb_cases. Qed.

Lemma isdigit_tolower x : isdigit (tolower x) = isdigit x.
Proof. unfold isdigit, tolower. leb_cases. Qed.

Lemma tolower_digit x : isdigit x = true -> tolower x = x.
Proof. unfold isdigit, tolower. leb_cases. Qed.

Lemma charCode_lower ch :
  charCode (toChar (tolower (charCode ch))) = tolower (charCode ch).
Proof.
  rewrite charCode_toChar. apply Z.mod_small.
  pose proof (charCode_range ch). unfold tolower.
  destruct ((65 <=? charCode ch) && (charCode ch <=? 90)) eqn:E; [|lia].
  apply andb_true_iff in E as [_ E%Z.leb_le]. lia.
Qed.

Lemma parseSquare_lowerToken t : parseSquare (lowerToken t) = parseSquare t.
Proof.
  unfold parseSquare.
  assert (Ha : forall init, firstAlpha (lowerToken t) init = firstAlpha t init).
  { intros init. induction t as [|ch t IH]; simpl; [done|].
    rewrite charCode_lower, isalpha_tolower, tolower_tolower.
    by destruct (isalpha (charCode ch)). }
  assert (Hd : forall init, firstDigit (lowerToken t) init = firstDigit t init).
  { clear Ha. intros init. induction t as [|ch t IH]; simpl; [done|].
    rewrite charCode_lower, isdigit_tolower.
    destruct (isdigit (charCode ch)) eqn:E; [by apply tolower_digit|done]. }
  assert (Hlen : String.length (lowerToken t) = String.length t).
  { clear Ha Hd. induction t as [|ch t IH]; simpl; [done|]. by rewrite IH. }
  by rewrite Hlen, Ha, Hd.
Qed.

(** X2: [parseSquare] does not see the case of letters: two tokens that
    agree once every character is lowered are read alike. *)
Theorem parseSquare_case_insensitive (t t' : string) :
  lowerToken t = lowerToken t' -> parseSquare t = parseSquare t'.
Proof.
  intros H.
  by rewrite <- (parseSquare_lowerToken t), H, parseSquare_lowerToken.
Qed.

Lemma parseSquare_case_insensitive_witness :
  parseSquare "B6" = parseSquare "b6" /\ parseSquare "b6" = Some (5, 1).
Proof.
  split; [|reflexivity].
  apply (parseSquare_case_insensitive "B6" "b6"). reflexivity.
Defined.

(** X3: what [parseSquare] refuses: a token shorter than two characters; a
    token whose first letter is not one of a-h or A-H, whatever follows
    it; a token whose first digit is not one of 1-8, whatever follows it;
    a token without a letter or without a digit. *)
Theorem parseSquare_refuses :
  (forall t, (String.length t < 2)%nat -> parseSquare t = None) /\
  (forall pre ch rest,
     noAlpha pre = true -> isalpha (charCode ch) = true ->
     tolower (charCode ch) < 97 \/ 104 < tolower (charCode ch) ->
     parseSquare (pre ++ String ch rest) = None) /\
  (forall pre ch rest,
     noDigit pre = true -> isdigit (charCode ch) = true ->
     charCode ch < 49 \/ 56 < charCode ch ->
     parseSquare (pre ++ String ch rest) = None) /\
  (forall t, noAlpha t = true \/ noDigit t = true -> parseSquare t = None).
Proof.
  unfold parseSquare. repeat split.
  - intros t Hlen. by rewrite (proj2 (Nat.ltb_lt _ _) Hlen).
  - intros pre ch rest Hpre Hch Hout.
    destruct (_ <? 2)%nat; [done|].
    rewrite firstAlpha_skip by done. cbn [firstAlpha]. rewrite Hch.
    replace ((tolower (charCode ch) <? 97) || (104 <? tolower (charCode ch)))
      with true; [done|].
    symmetry. apply orb_true_iff.
    destruct Hout; [left; by apply Z.ltb_lt | right; by apply Z.ltb_lt].
  - intros pre ch rest Hpre Hch Hout.
    destruct (_ <? 2)%nat; [done|].
    rewrite (firstDigit_skip pre) by done. cbn [firstDigit]. rewrite Hch.
    destruct (_ || _); [done|].
    replace ((charCode ch <? 49) || (56 <? charCode ch)) with true; [done|].
    symmetry. apply orb_true_iff.
    destruct Hout; [left; by apply Z.ltb_lt | right; by apply Z.ltb_lt].
  - intros t [H|H]; destruct (_ <? 2)%nat; try done.
    + by rewrite (firstAlpha_none t 0 H).
    + rewrite (firstDigit_none t 0 H). by destruct (_ || _).
Qed.

Lemma parseSquare_refuses_witness :
  parseSquare "b" = None /\ parseSquare "xb6" = None /\
  parseSquare "b96" = None /\ parseSquare "66" = None.
Proof.
  destruct parseSquare_refuses as (H1 & H2 & H3 & H4).
  split; [|split; [|split]].
  - apply H1. simpl. lia.
  - apply (H2 EmptyString "x"%char "b6"%string);
      [reflexivity | reflexivity | right; reflexivity].
  - apply (H3 "b"%string "9"%char "6"%string);
      [reflexivity | reflexivity | right; reflexivity].
  - apply H4. left. reflexivity.
Defined.

(** ** Simple moves and the legal set *)

Lemma stepTo_inj r c dr dc dr' dc' :
  stepTo r c dr dc = stepTo r c dr' dc' -> dr = dr' /\ dc = dc'.
Proof. unfold stepTo. intros [= ? ?]. lia. Qed.

(** X4: from a square of the board, [simpleMovesFrom] emits the step in
    direction [(dr, dc)] if and only if the square holds a piece of the
    player, the direction is in that piece's direction set and the
    adjacent cell is on the board and EMPTY; it emits nothing but such
    single diagonal steps, none of them marked as a capture. *)
Theorem simpleMovesFrom_iff (b : Board) (r c : Z) (pl : Player) :
  inBounds r c = true ->
  (forall dr dc,
     In (stepTo r c dr dc) (simpleMovesFrom b r c pl) <->
       belongsTo (cellAt b r c) pl = true /\
       inDirectionSet (cellAt b r c) pl dr dc /\
       inBounds (r + dr) (c + dc) = true /\
       cellAt b (r + dr) (c + dc) = EMPTY) /\
  (forall m, In m (simpleMovesFrom b r c pl) ->
     isCapture m = false /\
     exists dr dc, In (dr, dc) diagonals /\ m = stepTo r c dr dc).
Proof.
  intros Hin. split.
  - intros dr dc. rewrite In_simpleMovesFrom. split.
    + intros (Hb & dr' & dc' & Hd & Hm & H1 & He).
      apply stepTo_inj in Hm as [-> ->]. apply dirsOf_spec in Hd. tauto.
    + intros (Hb & Hd & H1 & He). split; [done|]. exists dr, dc.
      apply dirsOf_spec in Hd. tauto.
  - intros m Hm.
    apply (proj1 (In_simpleMovesFrom _ _ _ _ _)) in Hm
      as (_ & dr & dc & Hd & -> & _).
    split; [done|]. exists dr, dc. split; [|done]. by apply dirsOf_diagonal in Hd.
Qed.

Lemma simpleMovesFrom_iff_witness :
  In (stepTo 2 1 1 (-1)) (simpleMovesFrom startBoard 2 1 WHITE) /\
  ~ In (stepTo 2 1 (-1) 1) (simpleMovesFrom startBoard 2 1 WHITE).
Proof.
  pose proof (simpleMovesFrom_iff startBoard 2 1 WHITE eq_refl) as [H _].
  split.
  - apply (proj2 (H 1 (-1))). vm_compute. intuition.
  - intros Hc. apply (proj1 (H (-1) 1)) in Hc as (_ & (_ & Hc) & _).
    vm_compute in Hc. discriminate.
Defined.

Lemma dirsOf_forward p pl dr dc :
  In (dr, dc) (dirsOf p pl) -> isKing p = false -> dr = forwardDir pl.
Proof.
  unfold dirsOf. intros Hd Hk. rewrite Hk in Hd.
  simpl in Hd. destruct Hd as [Hd|[Hd|[]]]; by injection Hd as <- <-.
Qed.

Lemma forwardDir_square pl : 0 < forwardDir pl * forwardDir pl.
Proof. by destruct pl. Qed.

Lemma legal_wellFormed b pl mv :
  In mv (allLegalMoves b pl) -> wellFormedMove b pl mv.
Proof.
  intros Hm. destruct (In_allLegalMoves _ _ _ Hm) as (r & c & Hin & [Hc|Hs]).
  - apply (proj1 (In_captureMovesFrom _ _ _ _ _)) in Hc
      as (Hb & dr & dc & Hd & -> & H1 & H2 & He & Hen).
    rewrite (isEnemy_belongsTo _ _ pl Hb) in Hen.
    unfold wellFormedMove, strictlyBetween, captureTo. simpl.
    repeat split; try done; try lia.
    + intros Hk. rewrite (dirsOf_forward _ _ _ _ Hd Hk).
      pose proof (forwardDir_square pl). lia.
    + apply dirsOf_diagonal in Hd. diagonal_cases Hd; lia.
    + apply dirsOf_diagonal in Hd. diagonal_cases Hd; lia.
  - apply (proj1 (In_simpleMovesFrom _ _ _ _ _)) in Hs
      as (Hb & dr & dc & Hd & -> & H1 & He).
    unfold wellFormedMove, stepTo. simpl.
    repeat split; try done.
    + intros Hk. rewrite (dirsOf_forward _ _ _ _ Hd Hk).
      pose proof (forwardDir_square pl). lia.
    + apply dirsOf_diagonal in Hd. diagonal_cases Hd; lia.
    + apply dirsOf_diagonal in Hd. diagonal_cases Hd; lia.
Qed.

(** X5: every move of [allLegalMoves] starts on a square of the board
    holding a piece of the player and ends on an EMPTY square of the
    board; a man moves towards its forward rows only; a capture lands two
    squares away along a diagonal, over a piece of the opponent; a simple
    move lands on a diagonal neighbour and carries (-1, -1) as captured
    position. *)
Theorem allLegalMoves_wellFormed (b : Board) (pl : Player) (mv : Move) :
  In mv (allLegalMoves b pl) -> wellFormedMove b pl mv.
Proof. apply legal_wellFormed. Qed.

Lemma allLegalMoves_wellFormed_witness :
  wellFormedMove captureBoard WHITE (captureTo 2 1 1 1) /\
  wellFormedMove startBoard BLACK (stepTo 5 2 (-1) 1).
Proof.
  split.
  - apply allLegalMoves_wellFormed. vm_compute. left. reflexivity.
  - apply allLegalMoves_wellFormed. vm_compute. right. left. reflexivity.
Defined.

(** ** Piece counts *)

Lemma NoDup_allPositions : NoDup allPositions.
Proof. apply (bool_decide_unpack _). by vm_compute. Qed.

Lemma filter_length_ext {X : Type} (P P' : X -> bool) (l : list X) :
  (forall x, In x l -> P' x = P x) ->
  length (List.filter P' l) = length (List.filter P l).
Proof.
  intros H. induction l as [|x l IH]; simpl; [done|].
  rewrite (H x) by (by left).
  destruct (P x); simpl; rewrite IH; auto.
  all: intros y Hy; apply H; by right.
Qed.

(** Changing the predicate at one element of a duplicate-free list. *)
Lemma filter_length_update {X : Type} `{EqDecision X}
    (P P' : X -> bool) (l : list X) (a : X) :
  NoDup l -> In a l ->
  (forall x, In x l -> x <> a -> P' x = P x) ->
  Z.of_nat (length (List.filter P' l)) =
  Z.of_nat (length (List.filter P l)) - Z.b2z (P a) + Z.b2z (P' a).
Proof.
  induction 1 as [|x l Hx Hnd IH]; intros Ha Hext; [done|].
  simpl. destruct (decide (x = a)) as [->|Hne].
  - assert (E : length (List.filter P' l) = length (List.filter P l)).
    { apply filter_length_ext. intros y Hy. apply Hext; [by right|].
      intros ->. by apply Hx, list_elem_of_In. }
    destruct (P a), (P' a); simpl; rewrite ?E; lia.
  - destruct Ha as [Ha|Ha]; [done|].
    rewrite (Hext x) by (by left || done).
    assert (IH' := IH Ha (fun y Hy => Hext y (or_intror Hy))).
    destruct (P x); simpl; lia.
Qed.

(** The count after one assignment to a cell. *)
Lemma countPieces_setCell b r c v pl :
  wfBoard b -> inBounds r c = true ->
  countPieces (setCell b r c v) pl =
    countPieces b pl - Z.b2z (belongsTo (cellAt b r c) pl)
                     + Z.b2z (belongsTo v pl).
Proof.
  intros Hwf Hin. rewrite !countPieces_owned. unfold ownedPositions.
  rewrite (filter_length_update
             (fun '(r, c) => belongsTo (cellAt b r c) pl)
             (fun '(r', c') => belongsTo (cellAt (setCell b r c v) r' c') pl)
             allPositions (r, c)).
  - by rewrite cellAt_setCell_eq.
  - apply NoDup_allPositions.
  - by apply In_allPositions.
  - intros [r' c'] _ Hne. by rewrite cellAt_setCell_ne by congruence.
Qed.

(** Counts only look at whose piece each cell holds. *)
Lemma countPieces_ext b b' pl :
  (forall r c, inBounds r c = true ->
     belongsTo (cellAt b' r c) pl = belongsTo (cellAt b r c) pl) ->
  countPieces b' pl = countPieces b pl.
Proof.
  intros H. rewrite !countPieces_owned. unfold ownedPositions. f_equal.
  apply filter_length_ext. intros [r c] Hin. apply H. by apply In_allPositions.
Qed.

Lemma applyMove_counts_generated b r c pl mv :
  wfBoard b -> inBounds r c = true ->
  In mv (captureMovesFrom b r c pl) \/ In mv (simpleMovesFrom b r c pl) ->
  countPieces (applyMove b mv) pl = countPieces b pl /\
  countPieces (applyMove b mv) (opponent pl) =
    countPieces b (opponent pl) - Z.b2z (isCapture mv).
Proof.
  intros Hwf Hin [Hm|Hm].
  - apply (proj1 (In_captureMovesFrom _ _ _ _ _)) in Hm
      as (Hb & dr & dc & Hd & -> & H1 & H2 & He & Hen).
    apply dirsOf_diagonal in Hd.
    rewrite (isEnemy_belongsTo _ _ pl Hb) in Hen.
    unfold applyMove, captureTo. cbn [fr fc tr tc cr cc isCapture].
    assert (N1 : (r + 2 * dr, c + 2 * dc) <> (r, c))
      by (diagonal_cases Hd; intros [= ? ?]; lia).
    assert (N2 : (r + 2 * dr, c + 2 * dc) <> (r + dr, c + dc))
      by (diagonal_cases Hd; intros [= ? ?]; lia).
    assert (N3 : (r, c) <> (r + dr, c + dc))
      by (diagonal_cases Hd; intros [= ? ?]; lia).
    rewrite !countPieces_setCell by auto using wfBoard_setCell.
    rewrite !cellAt_setCell_ne by done.
    rewrite He, Hb, Hen. rewrite (belongsTo_opponent _ _ Hb).
    assert (Hq : belongsTo (cellAt b (r + dr) (c + dc)) pl = false).
    { rewrite <- (opponent_involutive pl). by apply belongsTo_opponent. }
    rewrite Hq. simpl. lia.
  - apply (proj1 (In_simpleMovesFrom _ _ _ _ _)) in Hm
      as (Hb & dr & dc & Hd & -> & H1 & He).
    apply dirsOf_diagonal in Hd.
    unfold applyMove, stepTo. cbn [fr fc tr tc cr cc isCapture].
    assert (N1 : (r + dr, c + dc) <> (r, c))
      by (diagonal_cases Hd; intros [= ? ?]; lia).
    rewrite !countPieces_setCell by auto using wfBoard_setCell.
    rewrite !cellAt_setCell_ne by done.
    rewrite He, Hb. rewrite (belongsTo_opponent _ _ Hb). simpl. lia.
Qed.

(** X6: applying a generated move leaves the mover's piece count as it is
    and lowers the opponent's count by exactly one for a capture, by
    nothing for a simple move. *)
Theorem applyMove_counts (b : Board) (r c : Z) (pl : Player) (mv : Move) :
  wfBoard b -> inBounds r c = true ->
  In mv (captureMovesFrom b r c pl) \/ In mv (simpleMovesFrom b r c pl) ->
  countPieces (applyMove b mv) pl = countPieces b pl /\
  countPieces (applyMove b mv) (opponent pl) =
    countPieces b (opponent pl) - Z.b2z (isCapture mv).
Proof. apply applyMove_counts_generated. Qed.

Lemma applyMove_counts_witness :
  let mv := captureTo 2 1 1 1 in
  countPieces (applyMove captureBoard mv) WHITE = countPieces captureBoard WHITE /\
  countPieces (applyMove captureBoard mv) (opponent WHITE) =
    countPieces captureBoard (opponent WHITE) - Z.b2z (isCapture mv).
Proof.
  apply (applyMove_counts captureBoard 2 1 WHITE).
  - apply wfBoardb_spec. vm_compute. reflexivity.
  - reflexivity.
  - left. vm_compute. left. reflexivity.
Defined.

Lemma maybePromote_counts b r c pl :
  wfBoard b -> inBounds r c = true ->
  countPieces (maybePromote b r c) pl = countPieces b pl.
Proof.
  intros Hwf Hin. apply countPieces_ext. intros r' c' _.
  by apply belongsTo_maybePromote.
Qed.

(** X7: [maybePromote] changes no piece count, leaves every other cell
    alone, never changes whose piece the cell holds, and a second call on
    the same square changes nothing more. *)
Theorem maybePromote_stable (b : Board) (r c : Z) :
  wfBoard b -> inBounds r c = true ->
  (forall pl, countPieces (maybePromote b r c) pl = countPieces b pl) /\
  (forall r' c' pl,
     belongsTo (cellAt (maybePromote b r c) r' c') pl =
     belongsTo (cellAt b r' c') pl) /\
  maybePromote (maybePromote b r c) r c = maybePromote b r c.
Proof.
  intros Hwf Hin. split; [|split].
  - intros pl. by apply maybePromote_counts.
  - intros r' c' pl. by apply belongsTo_maybePromote.
  - rewrite (maybePromote_unfold (maybePromote b r c)).
    rewrite (maybePromote_unfold b).
    destruct (cellAt b r c) eqn:E; rewrite ?E; try done.
    + destruct (r =? 7) eqn:E7; [|by rewrite E].
      by rewrite cellAt_setCell_eq.
    + destruct (r =? 0) eqn:E0; [|by rewrite E].
      by rewrite cellAt_setCell_eq.
Qed.

Lemma maybePromote_stable_witness :
  let b := setCell zeroBoard 7 2 W_MAN in
  (forall pl, countPieces (maybePromote b 7 2) pl = countPieces b pl) /\
  (forall r' c' pl,
     belongsTo (cellAt (maybePromote b 7 2) r' c') pl =
     belongsTo (cellAt b r' c') pl) /\
  maybePromote (maybePromote b 7 2) 7 2 = maybePromote b 7 2.
Proof.
  apply maybePromote_stable.
  - apply wfBoardb_spec. vm_compute. reflexivity.
  - reflexivity.
Defined.

(** ** Piece counts along a game *)

Lemma player_cases (pl pl0 : Player) : pl = pl0 \/ pl = opponent pl0.
Proof. destruct pl, pl0; auto. Qed.

Lemma legal_move_counts b pl mv :
  wfBoard b -> In mv (allLegalMoves b pl) ->
  countPieces (applyMove b mv) pl = countPieces b pl /\
  countPieces (applyMove b mv) (opponent pl) =
    countPieces b (opponent pl) - Z.b2z (isCapture mv).
Proof.
  intros Hwf Hm. destruct (In_allLegalMoves _ _ _ Hm) as (r & c & Hin & Hgen).
  by apply (applyMove_counts_generated b r c).
Qed.

Lemma b2z_range (x : bool) : 0 <= Z.b2z x <= 1.
Proof. destruct x; simpl; lia. Qed.

Lemma step_counts s pl :
  Inv s -> countPieces (board (snd (step s))) pl <= countPieces (board s) pl.
Proof.
  step_cases s; intros (Hwf & Hd & Hph); try lia.
  - destruct (legal_move_counts _ _ _ Hwf H0) as [E1 E2].
    pose proof (b2z_range (isCapture mv)).
    destruct (player_cases pl (turn s)) as [->| ->]; lia.
  - destruct (In_allLegalMoves _ _ _ H0) as (r & c & Hin & Hgen).
    destruct (generated_move_lands _ _ _ _ _ Hwf Hin Hgen) as (Ht & _).
    rewrite maybePromote_counts by auto using wfBoard_applyMove.
    destruct (legal_move_counts _ _ _ Hwf H0) as [E1 E2].
    pose proof (b2z_range (isCapture mv)).
    destruct (player_cases pl (turn s)) as [->| ->]; lia.
  - rewrite H in Hph. destruct Hph as [Hin _].
    destruct (applyMove_counts_generated _ _ _ _ _ Hwf Hin (or_introl H0))
      as [E1 E2].
    pose proof (b2z_range (isCapture m)).
    destruct (player_cases pl (turn s)) as [->| ->]; lia.
  - rewrite H in Hph. destruct Hph as [Hin _].
    rewrite maybePromote_counts by done. lia.
Qed.

Lemma reachable_counts_le_12 s pl :
  reachable s -> countPieces (board s) pl <= 12.
Proof.
  induction 1 as [inp|s Hs IH].
  - destruct pl; by vm_compute.
  - pose proof (step_counts s pl (reachable_Inv s Hs)). lia.
Qed.

(** X8: along every game no iteration of [main] raises a piece count, no
    player ever has more than twelve pieces, and an iteration that applies
    a move leaves the mover's count as it is and lowers the opponent's by
    one exactly when the move is a capture. *)
Theorem piece_counts_never_grow (s : State) :
  reachable s ->
  (forall pl,
     countPieces (board (snd (step s))) pl <= countPieces (board s) pl /\
     countPieces (board s) pl <= 12) /\
  (forall mv, In (EvApply mv) (fst (step s)) ->
     countPieces (board (snd (step s))) (turn s) =
       countPieces (board s) (turn s) /\
     countPieces (board (snd (step s))) (opponent (turn s)) =
       countPieces (board s) (opponent (turn s)) - Z.b2z (isCapture mv)).
Proof.
  intros Hs. split.
  - intros pl. split; [apply step_counts; by apply reachable_Inv|].
    by apply reachable_counts_le_12.
  - apply reachable_Inv in Hs. revert Hs.
    step_cases s; intros (Hwf & Hd & Hph) mv' Hin; In_events Hin.
    + by apply legal_move_counts.
    + destruct (In_allLegalMoves _ _ _ H0) as (r & c & Hin & Hgen).
      destruct (generated_move_lands _ _ _ _ _ Hwf Hin Hgen) as (Ht & _).
      rewrite !maybePromote_counts by auto using wfBoard_applyMove.
      by apply legal_move_counts.
    + rewrite H in Hph. destruct Hph as [Hin _].
      apply (applyMove_counts_generated _ curR curC); auto.
Qed.

Lemma piece_counts_never_grow_witness :
  let s := snd (main 4 gameNoPieces) in
  (forall pl,
     countPieces (board (snd (step s))) pl <= countPieces (board s) pl /\
     countPieces (board s) pl <= 12) /\
  (forall mv, In (EvApply mv) (fst (step s)) ->
     countPieces (board (snd (step s))) (turn s) =
       countPieces (board s) (turn s) /\
     countPieces (board (snd (step s))) (opponent (turn s)) =
       countPieces (board s) (opponent (turn s)) - Z.b2z (isCapture mv)).
Proof.
  intros s. apply piece_counts_never_grow. apply reachable_main.
Defined.

(** ** Submitting a move *)

Lemma legal_same_kind b pl m m' :
  In m (allLegalMoves b pl) -> In m' (allLegalMoves b pl) ->
  isCapture m = isCapture m'.
Proof.
  rewrite allLegalMoves_unfold.
  destruct (allCaptures b pl) as [|m0 caps] eqn:E.
  - intros Hm Hm'.
    apply (proj1 (in_flat_map _ _ _)) in Hm as ([r c] & _ & Hm).
    apply (proj1 (in_flat_map _ _ _)) in Hm' as ([r' c'] & _ & Hm').
    pose proof (simpleMovesFrom_not_capture b r c pl) as HF.
    pose proof (simpleMovesFrom_not_capture b r' c' pl) as HF'.
    rewrite List.Forall_forall in HF, HF'.
    by rewrite (HF m Hm), (HF' m' Hm').
  - rewrite <- E. intros Hm Hm'.
    pose proof (allCaptures_isCapture b pl) as HF.
    rewrite List.Forall_forall in HF.
    by rewrite (HF m Hm), (HF m' Hm').
Qed.

Lemma legal_moves_by_squares b pl m m' :
  In m (allLegalMoves b pl) -> In m' (allLegalMoves b pl) ->
  (fr m, fc m, tr m, tc m) = (fr m', fc m', tr m', tc m') ->
  m = m'.
Proof.
  intros Hm Hm' Hsq. pose proof (legal_same_kind b pl m m' Hm Hm') as Hk.
  destruct (In_allLegalMoves _ _ _ Hm) as (r & c & _ & Hg).
  destruct (In_allLegalMoves _ _ _ Hm') as (r' & c' & _ & Hg').
  assert (Hshape : exists dr dc,
            m = captureTo r c dr dc \/ m = stepTo r c dr dc).
  { destruct Hg as [Hg|Hg].
    - apply (proj1 (In_captureMovesFrom _ _ _ _ _)) in Hg
        as (_ & dr & dc & _ & -> & _). eauto.
    - apply (proj1 (In_simpleMovesFrom _ _ _ _ _)) in Hg
        as (_ & dr & dc & _ & -> & _). eauto. }
  assert (Hshape' : exists dr dc,
            m' = captureTo r' c' dr dc \/ m' = stepTo r' c' dr dc).
  { destruct Hg' as [Hg'|Hg'].
    - apply (proj1 (In_captureMovesFrom _ _ _ _ _)) in Hg'
        as (_ & dr & dc & _ & -> & _). eauto.
    - apply (proj1 (In_simpleMovesFrom _ _ _ _ _)) in Hg'
        as (_ & dr & dc & _ & -> & _). eauto. }
  destruct Hshape as (dr & dc & [-> | ->]);
    destruct Hshape' as (dr' & dc' & [-> | ->]);
    unfold captureTo, stepTo in *; simpl in *; try done;
    injection Hsq as ? ? ? ?; f_equal; lia.
Qed.

(** X9: a legal move is identified by its origin and destination: two
    moves of [allLegalMoves] with the same four coordinates are the same
    move, so the search by [sameMove] cannot pick a wrong one. *)
Theorem legal_moves_distinct_squares (b : Board) (pl : Player) (m m' : Move) :
  In m (allLegalMoves b pl) -> In m' (allLegalMoves b pl) ->
  sameMove m (fr m') (fc m') (tr m') (tc m') = true ->
  m = m'.
Proof.
  intros Hm Hm' Hs. apply sameMove_spec in Hs.
  by apply (legal_moves_by_squares b pl).
Qed.

Lemma legal_moves_distinct_squares_witness :
  stepTo 2 1 1 1 = stepTo 2 1 1 1.
Proof.
  apply (legal_moves_distinct_squares startBoard WHITE).
  - vm_compute. left. reflexivity.
  - vm_compute. left. reflexivity.
  - reflexivity.
Defined.

Lemma find_unique {A : Type} (f : A -> bool) (l : list A) (x : A) :
  In x l -> f x = true ->
  (forall y, In y l -> f y = true -> y = x) ->
  find f l = Some x.
Proof.
  intros Hin Hx Huniq.
  destruct (find f l) as [y|] eqn:E.
  - apply find_some in E as [Hy Hfy]. by rewrite (Huniq y Hy Hfy).
  - by rewrite (find_none _ _ E x Hin) in Hx.
Qed.

Lemma legal_destination_dark b pl mv :
  darkOnly b -> In mv (allLegalMoves b pl) ->
  isDarkSquare (tr mv) (tc mv) = true.
Proof.
  intros Hd Hm. destruct (In_allLegalMoves _ _ _ Hm) as (r & c & Hin & Hg).
  assert (Hr : isDarkSquare r c = true).
  { apply Hd; [done|]. apply (belongsTo_not_EMPTY _ pl).
    destruct Hg as [Hg|Hg].
    - by apply (proj1 (In_captureMovesFrom _ _ _ _ _)) in Hg as (Hb & _).
    - by apply (proj1 (In_simpleMovesFrom _ _ _ _ _)) in Hg as (Hb & _). }
  destruct Hg as [Hg|Hg].
  - destruct (captureMovesFrom_shape _ _ _ _ _ Hin Hg)
      as (dr & dc & Hdiag & -> & Ht & _).
    unfold captureTo in *. simpl in *. by rewrite isDarkSquare_diagonal.
  - destruct (simpleMovesFrom_shape _ _ _ _ _ Hin Hg)
      as (dr & dc & Hdiag & -> & Ht).
    unfold stepTo in *. simpl in *.
    rewrite <- (Z.mul_1_l dr), <- (Z.mul_1_l dc) in Ht |- *.
    by rewrite isDarkSquare_diagonal.
Qed.

Lemma turnStep_accepts b pl t1 t2 rest mv :
  darkOnly b ->
  countPieces b WHITE <> 0 -> countPieces b BLACK <> 0 ->
  In mv (allLegalMoves b pl) ->
  parseSquare t1 = Some (fr mv, fc mv) ->
  parseSquare t2 = Some (tr mv, tc mv) ->
  turnStep b pl (t1 :: t2 :: rest) =
    if isCapture mv
    then ([EvApply mv],
          mkState (applyMove b mv) pl (Chain (tr mv) (tc mv)) rest)
    else ([EvApply mv; EvPromote (tr mv) (tc mv); EvSwitch (opponent pl)],
          mkState (maybePromote (applyMove b mv) (tr mv) (tc mv))
            (opponent pl) TurnStart rest).
Proof.
  intros Hd HW HB Hm H1 H2.
  pose proof (legal_wellFormed b pl mv Hm) as (_ & Hown & _ & He & _).
  pose proof (legal_destination_dark b pl mv Hd Hm) as Hdark.
  apply Z.eqb_neq in HW, HB.
  unfold turnStep. rewrite HW, HB, H1, H2, Hdark, Hown, He.
  cbn [negb Piece_eqb].
  rewrite (find_unique _ _ mv Hm).
  - destruct (allLegalMoves b pl); [done|].
    unfold endTurn. by destruct (isCapture mv).
  - by apply sameMove_spec.
  - intros m Hin Hs. by apply (legal_moves_by_squares b pl), sameMove_spec.
Qed.

(** X10: in every state of a game at the start of a turn, with both sides
    still having pieces, naming the origin and the destination of any
    legal move makes [main] apply exactly that move: none of the earlier
    checks (dark destination, own piece, empty destination) turns a legal
    move away.  A capture then enters the chain, a simple move is followed
    by the promotion check and the switch of turns. *)
Theorem legal_move_accepted (s : State) (t1 t2 : string) (rest : list string)
    (mv : Move) :
  reachable s -> phase s = TurnStart ->
  input s = t1 :: t2 :: rest ->
  countPieces (board s) WHITE <> 0 -> countPieces (board s) BLACK <> 0 ->
  In mv (allLegalMoves (board s) (turn s)) ->
  parseSquare t1 = Some (fr mv, fc mv) ->
  parseSquare t2 = Some (tr mv, tc mv) ->
  step s =
    if isCapture mv
    then ([EvApply mv],
          mkState (applyMove (board s) mv) (turn s)
            (Chain (tr mv) (tc mv)) rest)
    else ([EvApply mv; EvPromote (tr mv) (tc mv); EvSwitch (opponent (turn s))],
          mkState (maybePromote (applyMove (board s) mv) (tr mv) (tc mv))
            (opponent (turn s)) TurnStart rest).
Proof.
  intros Hs Hph Hinp HW HB Hm H1 H2.
  apply reachable_Inv in Hs as (_ & Hd & _).
  unfold step. rewrite Hph, Hinp. by apply turnStep_accepts.
Qed.

Lemma legal_move_accepted_witness :
  let s := initState [sqToStr 2 1; sqToStr 3 0] in
  step s =
    ([EvApply (stepTo 2 1 1 (-1)); EvPromote 3 0; EvSwitch BLACK],
     mkState (maybePromote (applyMove startBoard (stepTo 2 1 1 (-1))) 3 0)
       BLACK TurnStart []).
Proof.
  intros s.
  apply (legal_move_accepted s (sqToStr 2 1) (sqToStr 3 0) [] (stepTo 2 1 1 (-1))).
  - apply reach_init.
  - reflexivity.
  - reflexivity.
  - vm_compute. discriminate.
  - vm_compute. discriminate.
  - vm_compute. right. left. reflexivity.
  - reflexivity.
  - reflexivity.
Defined.

Lemma legal_capture_when_available b pl mv :
  allCaptures b pl <> [] -> In mv (allLegalMoves b pl) -> isCapture mv = true.
Proof.
  rewrite allLegalMoves_unfold. intros Hne Hm.
  destruct (allCaptures b pl) as [|m0 caps] eqn:E; [done|].
  rewrite <- E in Hm.
  pose proof (allCaptures_isCapture b pl) as HF.
  rewrite List.Forall_forall in HF. by apply HF.
Qed.

(** X11: [main] never applies at the start of a turn anything but the
    legal move whose origin and destination the two tokens name; when a
    capture is available anywhere on the board for the mover, the move
    applied is a capture. *)
Theorem applied_move_was_submitted (s : State) (mv : Move) :
  phase s = TurnStart ->
  In (EvApply mv) (fst (step s)) ->
  exists t1 t2 rest,
    input s = t1 :: t2 :: rest /\
    parseSquare t1 = Some (fr mv, fc mv) /\
    parseSquare t2 = Some (tr mv, tc mv) /\
    In mv (allLegalMoves (board s) (turn s)) /\
    (allCaptures (board s) (turn s) <> [] -> isCapture mv = true) /\
    input (snd (step s)) = rest.
Proof.
  destruct s as [b pl ph inp]. cbn [board turn phase input].
  intros -> Hin. unfold step in *. cbn [board turn phase input] in *.
  unfold turnStep, endTurn in *.
  destruct (allLegalMoves b pl) as [|m0 legal] eqn:EL;
    repeat case_match; simplify_eq; cbn [fst snd input] in *;
    In_events Hin.
  all: match goal with H : find _ _ = Some _ |- _ =>
         apply find_some in H as [Hm Hsame] end.
  all: apply sameMove_spec in Hsame; injection Hsame as <- <- <- <-.
  all: assert (Hm' := Hm); rewrite <- EL in Hm'.
  all: eexists _, _, _; repeat split; try done.
  all: intros Hne; by apply (legal_capture_when_available b pl).
Qed.

Lemma applied_move_was_submitted_witness :
  let s := mkState captureBoard WHITE TurnStart ["b3"; "d5"]%string in
  exists t1 t2 rest,
    input s = t1 :: t2 :: rest /\
    parseSquare t1 = Some (2, 1) /\
    parseSquare t2 = Some (4, 3) /\
    In (captureTo 2 1 1 1) (allLegalMoves (board s) (turn s)) /\
    (allCaptures (board s) (turn s) <> [] ->
       isCapture (captureTo 2 1 1 1) = true) /\
    input (snd (step s)) = rest.
Proof.
  intros s.
  apply (applied_move_was_submitted s (captureTo 2 1 1 1)).
  - reflexivity.
  - vm_compute. left. reflexivity.
Defined.

Lemma capture_landings_distinct b r c pl m m' :
  In m (captureMovesFrom b r c pl) -> In m' (captureMovesFrom b r c pl) ->
  (tr m, tc m) = (tr m', tc m') -> m = m'.
Proof.
  intros Hm Hm' Hl.
  apply (proj1 (In_captureMovesFrom _ _ _ _ _)) in Hm
    as (_ & dr & dc & _ & -> & _).
  apply (proj1 (In_captureMovesFrom _ _ _ _ _)) in Hm'
    as (_ & dr' & dc' & _ & -> & _).
  unfold captureTo in *. simpl in Hl. injection Hl as ? ?. f_equal; lia.
Qed.

(** X12: in a multi-capture, naming the landing square of any capture
    available from the current square makes [main] apply exactly that
    capture and continue the chain from its landing square. *)
Theorem forced_landing_accepted (s : State) (curR curC : Z) (m : Move) :
  phase s = Chain curR curC ->
  In m (captureMovesFrom (board s) curR curC (turn s)) ->
  parseSquare (nextToken (input s)) = Some (tr m, tc m) ->
  step s = ([EvApply m],
            mkState (applyMove (board s) m) (turn s) (Chain (tr m) (tc m))
              (afterToken (input s))).
Proof.
  destruct s as [b pl ph inp]. cbn [board turn phase input].
  intros -> Hm Hp. unfold step. cbn [board turn phase input].
  unfold chainStep. fold (nextToken inp) (afterToken inp). rewrite Hp.
  rewrite (find_unique _ _ m Hm).
  - by destruct (captureMovesFrom b curR curC pl).
  - by rewrite !Z.eqb_refl.
  - intros m' Hm' Hl. apply landing_true in Hl.
    by apply (capture_landings_distinct b curR curC pl).
Qed.

Lemma forced_landing_accepted_witness :
  let s := mkState (applyMove doubleJumpBoard (captureTo 2 1 1 1)) WHITE
             (Chain 4 3) [sqToStr 6 5] in
  step s = ([EvApply (captureTo 4 3 1 1)],
            mkState (applyMove (board s) (captureTo 4 3 1 1)) WHITE
              (Chain 6 5) []).
Proof.
  intros s. apply (forced_landing_accepted s 4 3 (captureTo 4 3 1 1)).
  - reflexivity.
  - vm_compute. left. reflexivity.
  - reflexivity.
Defined.

(** ** The end of the input *)

Lemma chain_starved b pl curR curC :
  captureMovesFrom b curR curC pl <> [] ->
  step (mkState b pl (Chain curR curC) []) =
    ([EvReject BadSquare], mkState b pl (Chain curR curC) []).
Proof.
  intros Hne. unfold step. cbn [board turn phase input]. unfold chainStep.
  by destruct (captureMovesFrom b curR curC pl).
Qed.

(** X13: how [main] meets the end of its input.  At the start of a turn of
    a game that is not over, fewer than two tokens left make it leave the
    loop with the board as it is and no winner declared.  In a
    multi-capture with a capture still to make, the unchecked read leaves
    an empty token: every further iteration reports a bad square and
    changes nothing, so the program never leaves the loop. *)
Theorem end_of_input :
  (forall s,
     phase s = TurnStart ->
     countPieces (board s) WHITE <> 0 -> countPieces (board s) BLACK <> 0 ->
     allLegalMoves (board s) (turn s) <> [] ->
     (length (input s) < 2)%nat ->
     step s = ([EvEndOfInput],
               mkState (board s) (turn s) (Finished EndOfInput) [])) /\
  (forall s curR curC,
     phase s = Chain curR curC ->
     captureMovesFrom (board s) curR curC (turn s) <> [] ->
     input s = [] ->
     forall n, run n s = (repeat (EvReject BadSquare) n, s)).
Proof.
  split.
  - intros [b pl ph inp]. cbn [board turn phase input].
    intros -> HW HB HL Hlen. apply Z.eqb_neq in HW, HB.
    unfold step. cbn [board turn phase input]. unfold turnStep.
    rewrite HW, HB. destruct (allLegalMoves b pl); [done|].
    destruct inp as [|t1 [|t2 rest]]; try done. simpl in Hlen. lia.
  - intros [b pl ph inp] curR curC. cbn [board turn phase input].
    intros -> Hne -> n. induction n as [|n IH]; [done|].
    rewrite run_S, (chain_starved b pl curR curC Hne). cbn [fst snd].
    by rewrite IH.
Qed.

Lemma end_of_input_witness :
  step (initState ["b3"%string]) =
    ([EvEndOfInput], mkState startBoard WHITE (Finished EndOfInput) []) /\
  (let s := mkState (applyMove doubleJumpBoard (captureTo 2 1 1 1)) WHITE
              (Chain 4 3) [] in
   run 7 s = (repeat (EvReject BadSquare) 7, s)).
Proof.
  destruct end_of_input as [H1 H2]. split.
  - apply (H1 (initState ["b3"%string])).
    + reflexivity.
    + vm_compute. discriminate.
    + vm_compute. discriminate.
    + vm_compute. discriminate.
    + simpl. lia.
  - intros s. apply (H2 s 4 3).
    + reflexivity.
    + vm_compute. discriminate.
    + reflexivity.
Defined.

(** ** Crowning *)

Lemma maybePromote_crowns b r c :
  wfBoard b -> inBounds r c = true -> ~ uncrowned (maybePromote b r c) r c.
Proof.
  intros Hwf Hin. rewrite maybePromote_unfold. unfold uncrowned.
  destruct (cellAt b r c) eqn:E.
  1, 3, 5: rewrite E; intuition congruence.
  - destruct (Z.eqb_spec r 7) as [->|Hne].
    + rewrite cellAt_setCell_eq by done. intuition (congruence || lia).
    + rewrite E. intuition congruence.
  - destruct (Z.eqb_spec r 0) as [->|Hne].
    + rewrite cellAt_setCell_eq by done. intuition (congruence || lia).
    + rewrite E. intuition congruence.
Qed.

Lemma maybePromote_other b r c r' c' :
  (r', c') <> (r, c) ->
  cellAt (maybePromote b r c) r' c' = cellAt b r' c'.
Proof.
  intros Hne. rewrite maybePromote_unfold.
  destruct (cellAt b r c); try done.
  - destruct (r =? 7); [|done]. apply cellAt_setCell_ne. congruence.
  - destruct (r =? 0); [|done]. apply cellAt_setCell_ne. congruence.
Qed.

Lemma uncrowned_not_EMPTY b r c : uncrowned b r c -> cellAt b r c <> EMPTY.
Proof. intros [[H _]|[H _]]; rewrite H; done. Qed.

(** Away from its destination, a move creates no uncrowned man. *)
Lemma applyMove_uncrowned b mv r c :
  applyMove_effect b mv ->
  uncrowned (applyMove b mv) r c -> (r, c) <> (tr mv, tc mv) ->
  uncrowned b r c /\ (r, c) <> (fr mv, fc mv).
Proof.
  intros (Hdest & Horig & Hcap & Hother) Hu Hne.
  pose proof (uncrowned_not_EMPTY _ _ _ Hu) as Hne0.
  assert (N2 : (r, c) <> (fr mv, fc mv)).
  { intros [= -> ->]. by rewrite Horig in Hne0. }
  assert (N3 : isCapture mv = true -> (r, c) <> (cr mv, cc mv)).
  { intros Hc [= -> ->]. by rewrite (Hcap Hc) in Hne0. }
  split; [|done]. unfold uncrowned in *. by rewrite Hother in Hu.
Qed.

Lemma legal_applyMove_effect b pl mv :
  wfBoard b -> In mv (allLegalMoves b pl) ->
  applyMove_effect b mv /\ inBounds (tr mv) (tc mv) = true.
Proof.
  intros Hwf Hm. destruct (In_allLegalMoves _ _ _ Hm) as (r & c & Hin & Hg).
  split; [by apply (generated_applyMove_effect b r c pl)|].
  by apply (generated_move_lands b r c pl mv Hwf Hin Hg).
Qed.

Lemma crowned_step s :
  Inv s ->
  (forall r c, inBounds r c = true -> uncrowned (board s) r c ->
     phase s = Chain r c) ->
  forall r c, inBounds r c = true -> uncrowned (board (snd (step s))) r c ->
    phase (snd (step s)) = Chain r c.
Proof.
  step_cases s; intros (Hwf & Hd & Hph) Hcr r c Hin Hu.
  - by apply Hcr.
  - specialize (Hcr r c Hin Hu). congruence.
  - specialize (Hcr r c Hin Hu). congruence.
  - by apply Hcr.
  - destruct (legal_applyMove_effect _ _ _ Hwf H0) as [Heff Ht].
    destruct (decide ((r, c) = (tr mv, tc mv))) as [[= -> ->]|Hne]; [done|].
    destruct (applyMove_uncrowned _ _ _ _ Heff Hu Hne) as [Hu' _].
    specialize (Hcr r c Hin Hu'). congruence.
  - destruct (legal_applyMove_effect _ _ _ Hwf H0) as [Heff Ht].
    destruct (decide ((r, c) = (tr mv, tc mv))) as [[= -> ->]|Hne].
    + by apply maybePromote_crowns in Hu; auto using wfBoard_applyMove.
    + unfold uncrowned in Hu. rewrite maybePromote_other in Hu by done.
      destruct (applyMove_uncrowned _ _ _ _ Heff Hu Hne) as [Hu' _].
      specialize (Hcr r c Hin Hu'). congruence.
  - rewrite H in Hph. destruct Hph as [Hcur _].
    pose proof (generated_applyMove_effect _ _ _ _ _ Hwf Hcur (or_introl H0))
      as Heff.
    destruct (decide ((r, c) = (tr m, tc m))) as [[= -> ->]|Hne]; [done|].
    destruct (applyMove_uncrowned _ _ _ _ Heff Hu Hne) as [Hu' Hno].
    specialize (Hcr r c Hin Hu'). rewrite H in Hcr. injection Hcr as <- <-.
    apply (proj1 (In_captureMovesFrom _ _ _ _ _)) in H0
      as (_ & dr & dc & _ & -> & _).
    by destruct Hno.
  - rewrite H in Hph. destruct Hph as [Hcur _].
    destruct (decide ((r, c) = (curR, curC))) as [[= -> ->]|Hne].
    + by apply maybePromote_crowns in Hu.
    + unfold uncrowned in Hu. rewrite maybePromote_other in Hu by done.
      specialize (Hcr r c Hin Hu). rewrite H in Hcr. by injection Hcr as <- <-.
Qed.

Lemma reachable_crowned s :
  reachable s ->
  forall r c, inBounds r c = true -> uncrowned (board s) r c ->
    phase s = Chain r c.
Proof.
  induction 1 as [inp|s Hs IH].
  - intros r c Hin Hu. exfalso. apply inBounds_spec in Hin.
    destruct Hu as [[Hu ->]|[Hu ->]];
      assert (Hc : c = 0 \/ c = 1 \/ c = 2 \/ c = 3 \/ c = 4 \/ c = 5 \/
                   c = 6 \/ c = 7) by lia;
      repeat (destruct Hc as [->|Hc]; [by vm_compute in Hu|]); subst;
      by vm_compute in Hu.
  - apply crowned_step; [by apply reachable_Inv|done].
Qed.

(** X14: in every state of a game, a man stands uncrowned on its promotion
    row only as the piece that is in the middle of its multi-capture: at
    the start of every turn and when the program has stopped, every white
    man on row 7 and every black man on row 0 has become a king. *)
Theorem men_crowned_between_turns (s : State) :
  reachable s ->
  (forall curR curC r c,
     phase s = Chain curR curC -> inBounds r c = true ->
     uncrowned (board s) r c -> (r, c) = (curR, curC)) /\
  ((forall curR curC, phase s <> Chain curR curC) ->
   forall r c, inBounds r c = true -> ~ uncrowned (board s) r c).
Proof.
  intros Hs. split.
  - intros curR curC r c Hph Hin Hu.
    pose proof (reachable_crowned s Hs r c Hin Hu) as H. congruence.
  - intros Hno r c Hin Hu.
    by apply (Hno r c), reachable_crowned.
Qed.

Lemma men_crowned_between_turns_witness :
  let s25 := snd (main 25 gameNoPieces) in
  let s26 := snd (main 26 gameNoPieces) in
  (phase s25 = Chain 0 5 /\ uncrowned (board s25) 0 5) /\
  (phase s26 = TurnStart /\ cellAt (board s26) 0 5 = B_KING /\
   ~ uncrowned (board s26) 0 5).
Proof.
  intros s25 s26. split.
  - split; [vm_compute; reflexivity|]. right. vm_compute. split; reflexivity.
  - split; [vm_compute; reflexivity|]. split; [vm_compute; reflexivity|].
    apply (proj2 (men_crowned_between_turns s26
                    (reachable_main 26 gameNoPieces))).
    + intros curR curC. vm_compute. discriminate.
    + reflexivity.
Defined.

(** ** The start position *)

Lemma startBoard_cells r c :
  inBounds r c = true -> cellAt startBoard r c = startCell r c.
Proof.
  intros Hin. apply In_allPositions in Hin.
  assert (H : forallb (fun '(r, c) =>
                Piece_eqb (cellAt startBoard r c) (startCell r c))
                allPositions = true) by (by vm_compute).
  rewrite forallb_forall in H. specialize (H (r, c) Hin).
  by apply Piece_eqb_eq in H.
Qed.

(** X15: [initBoard] does not depend on what the array held: on any board
    it produces the start position, with white men on the dark squares of
    rows 0-2, black men on the dark squares of rows 5-7 and every other
    cell EMPTY, twelve pieces a side. *)
Theorem initBoard_layout (b : Board) :
  wfBoard b ->
  wfBoard (initBoard b) /\
  (forall r c, inBounds r c = true ->
     cellAt (initBoard b) r c = startCell r c) /\
  countPieces (initBoard b) WHITE = 12 /\
  countPieces (initBoard b) BLACK = 12 /\
  initBoard (initBoard b) = initBoard b.
Proof.
  intros Hwf. rewrite (initBoard_any b Hwf).
  split; [apply wfBoard_startBoard|].
  split; [apply startBoard_cells|].
  split; [by vm_compute|]. split; [by vm_compute|].
  apply initBoard_any, wfBoard_startBoard.
Qed.

Lemma initBoard_layout_witness :
  wfBoard (initBoard doubleJumpBoard) /\
  (forall r c, inBounds r c = true ->
     cellAt (initBoard doubleJumpBoard) r c = startCell r c) /\
  countPieces (initBoard doubleJumpBoard) WHITE = 12 /\
  countPieces (initBoard doubleJumpBoard) BLACK = 12 /\
  initBoard (initBoard doubleJumpBoard) = initBoard doubleJumpBoard.
Proof.
  apply initBoard_layout. apply wfBoardb_spec. vm_compute. reflexivity.
Defined.

(** ** Ownership *)

(** X16: the classification of pieces: a cell is EMPTY exactly when it
    belongs to neither player, no piece belongs to both, [isEnemy] is
    symmetric and holds exactly for two pieces of different players, and
    the kings are the pieces that [maybePromote] writes. *)
Theorem ownership_partition :
  (forall p, p = EMPTY <->
     belongsTo p WHITE = false /\ belongsTo p BLACK = false) /\
  (forall p pl, belongsTo p pl = true -> belongsTo p (opponent pl) = false) /\
  (forall a b, isEnemy a b = isEnemy b a) /\
  (forall a b, isEnemy a b = true <->
     exists pl, belongsTo a pl = true /\ belongsTo b (opponent pl) = true) /\
  (forall p, isKing p = true <-> p = W_KING \/ p = B_KING).
Proof.
  split; [|split; [|split; [|split]]].
  - intros p. destruct p; cbv; intuition congruence.
  - intros p pl. apply belongsTo_opponent.
  - intros a b. by destruct a, b.
  - intros a b. split.
    + intros H. destruct a, b; try discriminate H;
        ((exists WHITE; by cbv) || (exists BLACK; by cbv)).
    + intros (pl & Ha & Hb). by destruct a, b, pl.
  - intros p. destruct p; cbv; intuition congruence.
Qed.

(** ** The chain square *)

(** X17: whenever [main] is inside a multi-capture, the current square is
    a dark square of the board holding a piece of the player to move, and
    at the start of a turn the other player has a piece: the unguarded
    reads of [board[curR][curC]] stay inside the array. *)
Theorem chain_square_valid (s : State) :
  reachable s ->
  (forall curR curC, phase s = Chain curR curC ->
     inBounds curR curC = true /\
     isDarkSquare curR curC = true /\
     belongsTo (cellAt (board s) curR curC) (turn s) = true) /\
  (phase s = TurnStart ->
     countPieces (board s) (opponent (turn s)) <> 0).
Proof.
  intros Hs. pose proof (reachable_Inv s Hs) as (Hwf & Hd & Hph). split.
  - intros curR curC E. rewrite E in Hph. destruct Hph as [Hin Hb].
    repeat split; try done.
    apply Hd; [done|]. by apply (belongsTo_not_EMPTY _ (turn s)).
  - intros E. rewrite E in Hph. destruct Hph as (r & c & Hin & Hb).
    by apply (countPieces_pos _ _ r c).
Qed.

Lemma chain_square_valid_witness :
  let s := snd (main 5 gameNoPieces) in
  phase s = Chain 5 4 /\
  inBounds 5 4 = true /\ isDarkSquare 5 4 = true /\
  belongsTo (cellAt (board s) 5 4) (turn s) = true.
Proof.
  intros s. split; [vm_compute; reflexivity|].
  apply (proj1 (chain_square_valid s (reachable_main 5 gameNoPieces))).
  vm_compute. reflexivity.
Defined.

(** ** Declaring a winner *)

Lemma no_pieces_no_moves b pl :
  countPieces b pl = 0 -> allLegalMoves b pl = [].
Proof.
  intros H0. destruct (allLegalMoves b pl) as [|m l] eqn:E; [done|].
  assert (Hm : In m (allLegalMoves b pl)) by (rewrite E; by left).
  destruct (legal_wellFormed b pl m Hm) as (Hin & Hb & _).
  by destruct (countPieces_pos b pl _ _ Hin Hb).
Qed.

Lemma gameOver_at_turn_start s w why :
  In (EvGameOver w why) (fst (step s)) -> phase s = TurnStart.
Proof. step_cases s; intros Hin; In_events Hin; done. Qed.

Lemma turnStep_gameOver b pl inp w why :
  In (EvGameOver w why) (fst (turnStep b pl inp)) ->
  turnStep b pl inp =
    ([EvGameOver w why], mkState b pl (Finished (Win w why)) inp) /\
  ((why = NoPieces /\ countPieces b (opponent w) = 0) \/
   (why = NoLegalMoves /\ w = opponent pl /\ allLegalMoves b pl = [] /\
    countPieces b WHITE <> 0 /\ countPieces b BLACK <> 0)).
Proof.
  unfold turnStep, endTurn.
  destruct (Z.eqb_spec (countPieces b WHITE) 0) as [HW|HW].
  { intros Hin. In_events Hin. split; [done|]. left. by split. }
  destruct (Z.eqb_spec (countPieces b BLACK) 0) as [HB|HB].
  { intros Hin. In_events Hin. split; [done|]. left. by split. }
  destruct (allLegalMoves b pl) as [|m0 legal] eqn:EL.
  { intros Hin. In_events Hin. split; [done|]. right. by repeat split. }
  intros Hin. repeat case_match; simplify_eq; In_events Hin.
Qed.

(** X18: [main] declares a winner only at the start of a turn and only
    against a side that has lost: either the loser has no piece, or both
    sides have pieces and the player to move has no legal move.  In a game
    the winner is always the player who is not to move, still has a piece,
    and the player to move has no legal move. *)
Theorem winner_only_when_lost (s : State) (w : Player) (why : WinReason) :
  In (EvGameOver w why) (fst (step s)) ->
  phase s = TurnStart /\
  step s = ([EvGameOver w why],
            mkState (board s) (turn s) (Finished (Win w why)) (input s)) /\
  ((why = NoPieces /\ countPieces (board s) (opponent w) = 0) \/
   (why = NoLegalMoves /\ w = opponent (turn s) /\
    allLegalMoves (board s) (turn s) = [] /\
    countPieces (board s) WHITE <> 0 /\ countPieces (board s) BLACK <> 0)) /\
  (reachable s ->
     w = opponent (turn s) /\ countPieces (board s) w <> 0 /\
     allLegalMoves (board s) (turn s) = []).
Proof.
  intros Hin. pose proof (gameOver_at_turn_start s w why Hin) as Hph.
  split; [done|].
  unfold step in *. rewrite Hph in *.
  destruct (turnStep_gameOver _ _ _ _ _ Hin) as [Hstep Hwhy].
  split; [done|]. split; [done|].
  intros Hs. pose proof (reachable_Inv s Hs) as (_ & _ & Hinv).
  rewrite Hph in Hinv. destruct Hinv as (r & c & Hrc & Hb).
  pose proof (countPieces_pos _ _ r c Hrc Hb) as Hopp.
  destruct Hwhy as [[-> H0]|(-> & -> & HL & _)].
  - assert (Hw : w = opponent (turn s)).
    { revert H0 Hopp. clear.
      destruct w, (turn s); cbn [opponent Player_eqb]; congruence. }
    subst w. rewrite opponent_involutive in H0.
    split; [done|]. split; [done|]. by apply no_pieces_no_moves.
  - by repeat split.
Qed.

Lemma winner_only_when_lost_witness :
  let s := snd (main 41 gameNoMoves) in
  phase s = TurnStart /\
  step s = ([EvGameOver BLACK NoLegalMoves],
            mkState (board s) (turn s)
              (Finished (Win BLACK NoLegalMoves)) (input s)) /\
  ((NoLegalMoves = NoPieces /\ countPieces (board s) (opponent BLACK) = 0) \/
   (NoLegalMoves = NoLegalMoves /\ BLACK = opponent (turn s) /\
    allLegalMoves (board s) (turn s) = [] /\
    countPieces (board s) WHITE <> 0 /\ countPieces (board s) BLACK <> 0)) /\
  (reachable s ->
     BLACK = opponent (turn s) /\ countPieces (board s) BLACK <> 0 /\
     allLegalMoves (board s) (turn s) = []).
Proof.
  intros s. apply (winner_only_when_lost s BLACK NoLegalMoves).
  vm_compute. left. reflexivity.
Defined.

(** ** Rendering *)

Lemma pieceStr_shape p :
  pieceStr p =
    String " " (String (fst (pieceLetters p))
      (String (snd (pieceLetters p)) (String " " EmptyString))).
Proof. by destruct p. Qed.

(** X19: the picture [printBoard] draws has the same size for every board
    (789 characters: 17 lines of 43 and the line of file letters), and
    the four characters of [pieceStr] for the cell at [(r, c)] stand at
    the grid position of that cell. *)
Theorem printBoard_layout (b : Board) (r c : Z) :
  wfBoard b -> inBounds r c = true ->
  String.length (printBoard b) = 789%nat /\
  substring (cellOffset r c) 4 (printBoard b) = pieceStr (cellAt b r c).
Proof.
  intros [Hl Hr] Hin.
  destruct_length8 b Hl.
  repeat match goal with
         | H : Forall _ (_ :: _) |- _ =>
             let H1 := fresh "Hrow" in
             apply Forall_cons in H as [H1 H]
         end.
  clear Hr.
  repeat match goal with
         | H : length ?row = 8%nat |- _ => destruct_length8 row H
         end.
  match goal with |- context [printBoard ?B] => set (board0 := B) end.
  eassert (Hout : printBoard board0 = _).
  { subst board0. cbv -[pieceStr]. rewrite !pieceStr_shape. cbv [append].
    reflexivity. }
  rewrite Hout. split; [by vm_compute|].
  apply inBounds_spec in Hin.
  assert (Hrs : r = 0 \/ r = 1 \/ r = 2 \/ r = 3 \/ r = 4 \/ r = 5 \/
                r = 6 \/ r = 7) by lia.
  assert (Hcs : c = 0 \/ c = 1 \/ c = 2 \/ c = 3 \/ c = 4 \/ c = 5 \/
                c = 6 \/ c = 7) by lia.
  clear Hin Hout.
  repeat destruct Hrs as [->|Hrs]; try subst r;
    repeat destruct Hcs as [->|Hcs]; try subst c;
    subst board0; cbv -[pieceStr]; rewrite pieceStr_shape; reflexivity.
Qed.

Lemma printBoard_layout_witness :
  String.length (printBoard startBoard) = 789%nat /\
  substring (cellOffset 2 1) 4 (printBoard startBoard) =
    pieceStr (cellAt startBoard 2 1).
Proof.
  apply printBoard_layout; [apply wfBoard_startBoard | reflexivity].
Defined.

(** ** The move lists have no repetition *)

Lemma NoDup_flat_map {A B : Type} (f : A -> list B) (l : list A) :
  NoDup l ->
  (forall x, In x l -> NoDup (f x)) ->
  (forall x y a, In x l -> In y l -> In a (f x) -> In a (f y) -> x = y) ->
  NoDup (flat_map f l).
Proof.
  induction 1 as [|x l Hx Hnd IH]; intros Hf Hdisj; simpl; [constructor|].
  apply NoDup_app. split; [|split].
  - apply Hf. by left.
  - intros a Ha Hin. apply list_elem_of_In in Ha, Hin.
    apply (proj1 (in_flat_map _ _ _)) in Hin as (y & Hy & Hay).
    assert (x = y).
    { apply (Hdisj x y a); [by left | by right | done | done]. }
    subst y.
    by apply Hx, list_elem_of_In.
  - apply IH.
    + intros y Hy. apply Hf. by right.
    + intros y z a Hy Hz. apply Hdisj; by right.
Qed.

Lemma length_flat_map_le {A B : Type} (f : A -> list B) (l : list A) :
  (forall x, (length (f x) <= 1)%nat) ->
  (length (flat_map f l) <= length l)%nat.
Proof.
  intros H. induction l as [|x l IH]; simpl; [lia|].
  rewrite length_app. specialize (H x). lia.
Qed.

Lemma NoDup_dirsOf p pl : NoDup (dirsOf p pl).
Proof.
  unfold dirsOf. destruct (isKing p); [|destruct pl];
    apply (bool_decide_unpack _); by vm_compute.
Qed.

Lemma length_dirsOf p pl :
  (length (dirsOf p pl) <= if isKing p then 4 else 2)%nat.
Proof. unfold dirsOf. by destruct (isKing p). Qed.

Lemma NoDup_singleton_or_nil {A : Type} (l : list A) :
  (length l <= 1)%nat -> NoDup l.
Proof.
  destruct l as [|x [|y l]]; simpl; intros H.
  - constructor.
  - apply NoDup_singleton.
  - lia.
Qed.

Lemma length_captureIn b r c p d : (length (captureIn b r c p d) <= 1)%nat.
Proof. destruct d as [dr dc]. unfold captureIn. destruct (_ && _); simpl; lia. Qed.

Lemma length_simpleIn b r c d : (length (simpleIn b r c d) <= 1)%nat.
Proof. destruct d as [dr dc]. unfold simpleIn. destruct (_ && _); simpl; lia. Qed.

Lemma NoDup_captureMovesFrom b r c pl : NoDup (captureMovesFrom b r c pl).
Proof.
  rewrite captureMovesFrom_unfold.
  destruct (belongsTo (cellAt b r c) pl); [|constructor].
  apply NoDup_flat_map.
  - apply NoDup_dirsOf.
  - intros d _. apply NoDup_singleton_or_nil, length_captureIn.
  - intros [dr dc] [dr' dc'] a _ _ Ha Ha'.
    apply In_captureIn in Ha as (-> & _). apply In_captureIn in Ha' as (Ha' & _).
    simpl in Ha'. apply captureTo_inj in Ha' as [-> ->]. done.
Qed.

Lemma NoDup_simpleMovesFrom b r c pl : NoDup (simpleMovesFrom b r c pl).
Proof.
  rewrite simpleMovesFrom_unfold.
  destruct (belongsTo (cellAt b r c) pl); [|constructor].
  apply NoDup_flat_map.
  - apply NoDup_dirsOf.
  - intros d _. apply NoDup_singleton_or_nil, length_simpleIn.
  - intros [dr dc] [dr' dc'] a _ _ Ha Ha'.
    apply In_simpleIn in Ha as (-> & _). apply In_simpleIn in Ha' as (Ha' & _).
    simpl in Ha'. apply stepTo_inj in Ha' as [-> ->]. done.
Qed.

Lemma captureMovesFrom_origin b r c pl m :
  In m (captureMovesFrom b r c pl) -> (fr m, fc m) = (r, c).
Proof.
  intros Hm. apply (proj1 (In_captureMovesFrom _ _ _ _ _)) in Hm
    as (_ & dr & dc & _ & -> & _). done.
Qed.

Lemma simpleMovesFrom_origin b r c pl m :
  In m (simpleMovesFrom b r c pl) -> (fr m, fc m) = (r, c).
Proof.
  intros Hm. apply (proj1 (In_simpleMovesFrom _ _ _ _ _)) in Hm
    as (_ & dr & dc & _ & -> & _). done.
Qed.

(** X20: the move lists repeat nothing and are short: [captureMovesFrom]
    and [simpleMovesFrom] return at most four moves for a king and two for
    a man, all different, and [allCaptures] and [allLegalMoves] list every
    move once. *)
Theorem move_lists_irredundant (b : Board) (pl : Player) :
  (forall r c,
     NoDup (captureMovesFrom b r c pl) /\ NoDup (simpleMovesFrom b r c pl) /\
     (length (captureMovesFrom b r c pl)
        <= if isKing (cellAt b r c) then 4 else 2)%nat /\
     (length (simpleMovesFrom b r c pl)
        <= if isKing (cellAt b r c) then 4 else 2)%nat) /\
  NoDup (allCaptures b pl) /\
  NoDup (allLegalMoves b pl).
Proof.
  assert (Hcaps : NoDup (allCaptures b pl)).
  { rewrite allCaptures_unfold. apply NoDup_flat_map.
    - apply NoDup_allPositions.
    - intros [r c] _. apply NoDup_captureMovesFrom.
    - intros [r c] [r' c'] a _ _ Ha Ha'.
      apply captureMovesFrom_origin in Ha, Ha'. congruence. }
  split; [|split; [done|]].
  - intros r c. split; [apply NoDup_captureMovesFrom|].
    split; [apply NoDup_simpleMovesFrom|].
    rewrite captureMovesFrom_unfold, simpleMovesFrom_unfold.
    destruct (belongsTo (cellAt b r c) pl).
    + split.
      * etransitivity; [apply length_flat_map_le, length_captureIn|].
        apply length_dirsOf.
      * etransitivity; [apply length_flat_map_le, length_simpleIn|].
        apply length_dirsOf.
    + simpl. destruct (isKing _); lia.
  - rewrite allLegalMoves_unfold.
    destruct (allCaptures b pl) as [|m0 caps] eqn:E; [|done].
    apply NoDup_flat_map.
    + apply NoDup_allPositions.
    + intros [r c] _. apply NoDup_simpleMovesFrom.
    + intros [r c] [r' c'] a _ _ Ha Ha'.
      apply simpleMovesFrom_origin in Ha, Ha'. congruence.
Qed.
